(** * The gold-shop service worker (static/sw.js)

    A shallow embedding of the three listeners of the worker (install, fetch,
    activate) over a model of the host it talks to: the CacheStorage, the
    network, the console and the clients interface.

    - A listener runs to its end before any promise callback runs; the host
      calls it makes are recorded in a trace, in the order they are made.
    - Operations started side by side (the members of a [Promise.all])
      settle in the order they were started.
    - The storage is reliable: [open], [put], [delete] and [keys] do what
      they are asked.  The network is a function of the request: it answers
      with a response, with none, or fails.
    - One event is dispatched at a time. *)

From Stdlib Require Import Ascii.
From stdpp Require Import gmap strings list.

(** ** Strings as the script uses them *)

(** [a === b] on two strings. *)
Definition strict_eq (a b : string) : bool := String.eqb a b.
#[global] Arguments strict_eq : simpl never.

(** [sub] is an initial segment of [s]. *)
Fixpoint starts_with (s sub : string) {struct sub} : bool :=
  match sub, s with
  | EmptyString, _ => true
  | String c sub', String d s' => Ascii.eqb c d && starts_with s' sub'
  | String _ _, EmptyString => false
  end.

(** [s.includes(sub)]: [sub] occurs somewhere in [s]. *)
Fixpoint includes (s sub : string) : bool :=
  starts_with s sub ||
  match s with
  | EmptyString => false
  | String _ s' => includes s' sub
  end.

(** ASCII lower-casing, for header names (they match case-insensitively). *)
Definition ascii_lower (c : ascii) : ascii :=
  let n := nat_of_ascii c in
  if (65 <=? n) && (n <=? 90) then ascii_of_nat (n + 32) else c.

Fixpoint lower (s : string) : string :=
  match s with
  | EmptyString => EmptyString
  | String c s' => String (ascii_lower c) (lower s')
  end.

(** [Array.prototype.indexOf]: position of the first element strictly equal
    to [x], or -1. *)
Fixpoint indexOf_from (i : Z) (l : list string) (x : string) : Z :=
  match l with
  | [] => (-1)%Z
  | y :: l' => if strict_eq y x then i else indexOf_from (i + 1)%Z l' x
  end.

Definition indexOf (l : list string) (x : string) : Z := indexOf_from 0 l x.

(** ** Requests, responses, errors *)

Inductive Error : Type :=
  | TypeError (message : string)
  | DOMException (name message : string).

(** A settled promise: fulfilled with a value or rejected with a reason.  A
    synchronous computation that may throw has the same two outcomes. *)
Inductive Settled (A : Type) : Type :=
  | Fulfilled (value : A)
  | Rejected (reason : Error).
Arguments Fulfilled {A} value.
Arguments Rejected {A} reason.

Record Request : Type := {
  url : string;
  method : string;
  mode : string;
  headers : list (string * string)
}.

Record Response : Type := {
  status : nat;
  type : string;
  body : string
}.

#[global] Instance Error_eq_dec : EqDecision Error.
Proof. solve_decision. Defined.
#[global] Instance Response_eq_dec : EqDecision Response.
Proof. solve_decision. Defined.
#[global] Instance Request_eq_dec : EqDecision Request.
Proof. solve_decision. Defined.

(** [new Request(u)]: what the host builds when the script passes a string
    where a request is expected.  URL strings are kept as the host has
    resolved them, so a manifest path and the URL of a request for the same
    resource are the same string. *)
Definition request_of_url (u : string) : Request :=
  {| url := u; method := "GET"; mode := "cors"; headers := [] |}.

(** [headers.get(name)]: the values of every header of that name, joined by
    a comma and a space; [None] stands for [null]. *)
Fixpoint join_values (vs : list string) : string :=
  match vs with
  | [] => ""
  | [v] => v
  | v :: vs' => v +:+ ", " +:+ join_values vs'
  end.

Definition header_values (hs : list (string * string)) (name : string) : list string :=
  map snd (filter (fun h => lower (fst h) = lower name) hs).

Definition headers_get (hs : list (string * string)) (name : string) : option string :=
  match header_values hs name with
  | [] => None
  | vs => Some (join_values vs)
  end.

(** [response.clone()]: an equal copy. *)
Definition clone (r : Response) : Response := r.

(** ** The configuration of the script (sw.js lines 2-19) *)

Definition CACHE_NAME : string := "goldshop-cache-v3".

Definition urlsToCache : list string :=
  [ "/"; "/dashboard"; "/login"; "/static/style.css";
    "/static/images/icon-192x192.png"; "/static/images/icon-512x512.png";
    "/static/images/icon-maskable-192x192.png"; "/static/sw.js";
    "/offline.html" ].

(** ** The navigation test of the fetch listener (sw.js lines 46-47)

    [mode === 'navigate' || (method === 'GET' &&
     headers.get('accept').includes('text/html'))], with the short-circuit
    order of [||] and [&&].  Calling [includes] on [null] throws. *)
Definition isHtmlNavigation (request : Request) : Settled bool :=
  if strict_eq (mode request) "navigate" then Fulfilled true
  else if strict_eq (method request) "GET" then
    match headers_get (headers request) "accept" with
    | Some accept => Fulfilled (includes accept "text/html")
    | None => Rejected (TypeError "Cannot read properties of null (reading 'includes')")
    end
  else Fulfilled false.

(** ** The host: cache storage, calls, promises *)

(** One cache instance maps the URL of a stored request to its response;
    [put] overwrites by key.  The storage keeps the instances by name, in
    the order they were created. *)
Abbreviation Cache := (gmap string Response).
Definition CacheStorage : Type := list (string * Cache).

(** The calls a listener makes to its host. *)
Inductive HostCall : Type :=
  | CallConsole (level message : string)
  | CallCachesOpen (cacheName : string)
  | CallCachesMatch (request : Request)
  | CallCachesKeys
  | CallCachesDelete (cacheName : string)
  | CallCacheAdd (cacheName u : string)
  | CallCachePut (cacheName : string) (request : Request) (response : Response)
  | CallFetch (request : Request)
  | CallClientsClaim.

#[global] Instance HostCall_eq_dec : EqDecision HostCall.
Proof. solve_decision. Defined.

Fixpoint storage_lookup (st : CacheStorage) (cacheName : string) : option Cache :=
  match st with
  | [] => None
  | (n, c) :: st' => if strict_eq n cacheName then Some c else storage_lookup st' cacheName
  end.

(** The entry of [key] in the instance [cacheName], if both exist. *)
Definition cache_entry (st : CacheStorage) (cacheName key : string) : option Response :=
  storage_lookup st cacheName ≫= (fun c => c !! key).

(** [caches.open(name)] creates the instance when it is absent. *)
Definition storage_open (st : CacheStorage) (cacheName : string) : CacheStorage :=
  match storage_lookup st cacheName with
  | Some _ => st
  | None => st ++ [(cacheName, ∅)]
  end.

Fixpoint storage_put (st : CacheStorage) (cacheName key : string) (r : Response) : CacheStorage :=
  match st with
  | [] => []
  | (n, c) :: st' =>
      if strict_eq n cacheName then (n, <[key := r]> c) :: st'
      else (n, c) :: storage_put st' cacheName key r
  end.

Fixpoint storage_delete (st : CacheStorage) (cacheName : string) : CacheStorage :=
  match st with
  | [] => []
  | (n, c) :: st' =>
      if strict_eq n cacheName then storage_delete st' cacheName
      else (n, c) :: storage_delete st' cacheName
  end.

Definition storage_keys (st : CacheStorage) : list string := map fst st.

(** [caches.match(request)] searches every instance, oldest first; only GET
    requests match a stored entry. *)
Fixpoint match_all (st : CacheStorage) (key : string) : option Response :=
  match st with
  | [] => None
  | (_, c) :: st' =>
      match c !! key with
      | Some r => Some r
      | None => match_all st' key
      end
  end.

Definition storage_match (st : CacheStorage) (request : Request) : option Response :=
  if strict_eq (method request) "GET" then match_all st (url request) else None.

(** What happens once a promise settles: its outcome, the storage then, and
    the host calls made by the callbacks that ran. *)
Definition Async (A : Type) : Type :=
  CacheStorage -> Settled A * CacheStorage * list HostCall.

(** A promise-valued expression has two phases: the host calls made while
    it is evaluated, and what happens when it settles.  Operations that run
    side by side settle in the order they were started. *)
Record Promise (A : Type) : Type := {
  issued : list HostCall;
  settle : Async A
}.
Arguments issued {A} _.
Arguments settle {A} _.
Arguments Build_Promise {A} _ _.

Definition ret {A} (a : A) : Async A := fun st => (Fulfilled a, st, []).

Definition throw {A} (e : Error) : Async A := fun st => (Rejected e, st, []).

(** A host call made by a callback whose result is not a promise. *)
Definition log (c : HostCall) : Async unit := fun st => (Fulfilled tt, st, [c]).

Definition bind {A B} (p : Async A) (f : A -> Async B) : Async B :=
  fun st =>
    match p st with
    | (Fulfilled a, st1, t1) => let '(r, st2, t2) := f a st1 in (r, st2, t1 ++ t2)
    | (Rejected e, st1, t1) => (Rejected e, st1, t1)
    end.

Definition handle {A} (p : Async A) (h : Error -> Async A) : Async A :=
  fun st =>
    match p st with
    | (Fulfilled a, st1, t1) => (Fulfilled a, st1, t1)
    | (Rejected e, st1, t1) => let '(r, st2, t2) := h e st1 in (r, st2, t1 ++ t2)
    end.

Declare Scope async_scope.
Delimit Scope async_scope with async.
Notation "c ;; k" := (bind c (fun _ => k))
  (at level 100, k at level 200, right associativity) : async_scope.
Local Open Scope async_scope.

(** A host operation: the call, and its effect when it completes. *)
Definition host {A} (c : HostCall) (k : CacheStorage -> Settled A * CacheStorage) : Promise A :=
  {| issued := [c]; settle := fun st => let '(r, st') := k st in (r, st', []) |}.

(** [p.then(f)] and [p.catch(h)]. *)
Definition then_ {A B} (p : Promise A) (f : A -> Async B) : Promise B :=
  {| issued := issued p; settle := bind (settle p) f |}.

Definition catch_ {A} (p : Promise A) (h : Error -> Async A) : Promise A :=
  {| issued := issued p; settle := handle (settle p) h |}.

(** A value that is not a promise, where a promise is expected. *)
Definition resolved {A} (a : A) : Promise A := {| issued := []; settle := ret a |}.

(** A callback of [map] makes some calls, then returns a promise. *)
Definition preceded_by {A} (calls : list HostCall) (p : Promise A) : Promise A :=
  {| issued := calls ++ issued p; settle := settle p |}.

(** A callback evaluates a promise expression and returns it. *)
Definition await {A} (p : Promise A) : Async A :=
  fun st => let '(r, st', t) := settle p st in (r, st', issued p ++ t).

(** A callback evaluates a promise expression and drops it: its effects
    happen, its outcome reaches nobody. *)
Definition detach {A} (p : Promise A) : Async unit :=
  fun st => let '(_, st', t) := settle p st in (Fulfilled tt, st', issued p ++ t).

(** [Promise.all]: every member was already started and runs to its end;
    the result is rejected with the first rejection. *)
Fixpoint settle_all {A} (ps : list (Async A)) : Async (list A) :=
  match ps with
  | [] => ret []
  | p :: ps' =>
      fun st =>
        let '(r, st1, t1) := p st in
        let '(rs, st2, t2) := settle_all ps' st1 in
        (match r, rs with
         | Fulfilled a, Fulfilled l => Fulfilled (a :: l)
         | Rejected e, _ => Rejected e
         | Fulfilled _, Rejected e => Rejected e
         end, st2, t1 ++ t2)
  end.

Definition promise_all {A} (ps : list (Promise A)) : Promise (list A) :=
  {| issued := concat (map issued ps); settle := settle_all (map settle ps) |}.

(** *** The storage and client operations *)

Definition caches_open (cacheName : string) : Promise string :=
  host (CallCachesOpen cacheName) (fun st => (Fulfilled cacheName, storage_open st cacheName)).

Definition caches_match (request : Request) : Promise (option Response) :=
  host (CallCachesMatch request) (fun st => (Fulfilled (storage_match st request), st)).

Definition caches_keys : Promise (list string) :=
  host CallCachesKeys (fun st => (Fulfilled (storage_keys st), st)).

(** [caches.delete(name)] fulfils with whether the instance existed. *)
Definition caches_delete (cacheName : string) : Promise bool :=
  host (CallCachesDelete cacheName)
    (fun st => (Fulfilled (bool_decide (is_Some (storage_lookup st cacheName))),
                storage_delete st cacheName)).

(** [cache.put(request, response)] on the instance opened as [cache]; the
    host refuses requests that are not GET. *)
Definition cache_put (cache : string) (request : Request) (response : Response) : Promise unit :=
  host (CallCachePut cache request response)
    (fun st =>
       if strict_eq (method request) "GET"
       then (Fulfilled tt, storage_put st cache (url request) response)
       else (Rejected (TypeError "Request method is unsupported"), st)).

(** The responses [cache.add] accepts: an ok status other than 206, and not
    a network-error response. *)
Definition addable (r : Response) : bool :=
  (200 <=? status r) && (status r <=? 299)
  && negb (status r =? 206) && negb (strict_eq (type r) "error").

(** *** Listeners and their dispatch

    A listener runs to its end before any promise callback does.  Its body
    is: the calls made before the promise expression handed to
    [event.waitUntil] or [event.respondWith], that expression, and the calls
    made after it; or it throws.  [dispatch] runs the body, then lets the
    promise settle. *)
Record Listener (A : Type) : Type := {
  before : list HostCall;
  extended : option (Promise A);
  after : list HostCall;
  thrown : option Error
}.
Arguments before {A} _.
Arguments extended {A} _.
Arguments after {A} _.
Arguments thrown {A} _.

Record Run (A : Type) : Type := {
  outcome : option (Settled A);
  storage : CacheStorage;
  trace : list HostCall;
  uncaught : option Error
}.
Arguments outcome {A} _.
Arguments storage {A} _.
Arguments trace {A} _.
Arguments uncaught {A} _.

Definition dispatch {A} (l : Listener A) (st : CacheStorage) : Run A :=
  match extended l with
  | None =>
      {| outcome := None; storage := st;
         trace := before l ++ after l; uncaught := thrown l |}
  | Some p =>
      let '(r, st', t) := settle p st in
      {| outcome := Some r; storage := st';
         trace := before l ++ issued p ++ after l ++ t; uncaught := thrown l |}
  end.

(** [console.log], [console.warn], [console.error]: the message is kept,
    the values printed after it are not. *)
Definition console (level message : string) : HostCall := CallConsole level message.

(** ** The worker *)

Section Worker.

(** What the network answers to a request: a response, no response at all,
    or a failure. *)
Variable network : Request -> Settled (option Response).

Definition fetch (request : Request) : Promise (option Response) :=
  host (CallFetch request) (fun st => (network request, st)).

(** [cache.add(url)] fetches the URL and stores the response under it. *)
Definition cache_add (cache url : string) : Promise unit :=
  host (CallCacheAdd cache url)
    (fun st =>
       match network (request_of_url url) with
       | Fulfilled (Some r) =>
           if addable r then (Fulfilled tt, storage_put st cache url r)
           else (Rejected (TypeError "Request failed"), st)
       | Fulfilled None => (Rejected (TypeError "Failed to fetch"), st)
       | Rejected e => (Rejected e, st)
       end).

(** *** install (sw.js lines 22-41) *)

(** The callback of [urlsToCache.map] (lines 29-34). *)
Definition cache_or_warn (cache url : string) : Promise unit :=
  catch_ (cache_add cache url)
    (fun error =>
       log (console "warn" ("[Service Worker] Failed to cache " +:+ url +:+ ":"))).

Definition install_listener : Listener (option (list unit)) :=
  {| before := [console "log" "[Service Worker] Installing..."];
     extended := Some
       (catch_
          (then_ (caches_open CACHE_NAME)
             (fun cache =>
                log (console "log" "[Service Worker] Caching essential assets:") ;;
                let cachePromises := map (cache_or_warn cache) urlsToCache in
                bind (await (promise_all cachePromises)) (fun done => ret (Some done))))
          (fun error =>
             log (console "error" "[Service Worker] Failed to cache during install:") ;;
             ret None));
     after := [];
     thrown := None |}.

(** *** fetch (sw.js lines 44-100) *)

Definition offline_request : Request := request_of_url "/offline.html".

(** The promise handed to [event.respondWith] (lines 50-98). *)
Definition respond (isHtmlNavigation : bool) (request : Request) : Promise (option Response) :=
  then_ (caches_match request)
    (fun cachedResponse =>
       match cachedResponse with
       | Some cached =>
           log (console "log" ("[Service Worker] Serving from cache: " +:+ url request)) ;;
           ret (Some cached)
       | None =>
           await
             (catch_
                (then_ (fetch request)
                   (fun networkResponse =>
                      let fallback :=
                        if isHtmlNavigation then
                          log (console "log"
                                 ("[Service Worker] Network failed or invalid response for "
                                  +:+ url request +:+ ", falling back to offline page.")) ;;
                          await (caches_match offline_request)
                        else ret networkResponse in
                      match networkResponse with
                      | None => fallback
                      | Some received =>
                          if negb (status received =? 200)
                             || negb (strict_eq (type received) "basic")
                          then fallback
                          else
                            let responseToCache := clone received in
                            detach
                              (then_ (caches_open CACHE_NAME)
                                 (fun cache =>
                                    if strict_eq (method request) "GET"
                                       && negb (includes (url request) "/api/")
                                    then
                                      log (console "log"
                                             ("[Service Worker] Caching new resource: "
                                              +:+ url request)) ;;
                                      detach (cache_put cache request responseToCache)
                                    else ret tt)) ;;
                            ret networkResponse
                      end))
                (fun error =>
                   log (console "error"
                          ("[Service Worker] Fetch failed for " +:+ url request +:+ ":")) ;;
                   if isHtmlNavigation then
                     log (console "log"
                            ("[Service Worker] Network failed for " +:+ url request
                             +:+ ", falling back to offline page.")) ;;
                     await (caches_match offline_request)
                   else throw error))
       end).

Definition fetch_listener (request : Request) : Listener (option Response) :=
  match isHtmlNavigation request with
  | Rejected e =>
      {| before := []; extended := None; after := []; thrown := Some e |}
  | Fulfilled nav =>
      {| before := []; extended := Some (respond nav request); after := [];
         thrown := None |}
  end.

(** *** activate (sw.js lines 103-120) *)

(** The callback of [cacheNames.map] (lines 109-114); a name on the
    whitelist yields [undefined]. *)
Definition delete_unlisted (cacheWhitelist : list string) (cacheName : string)
  : Promise (option bool) :=
  if (indexOf cacheWhitelist cacheName =? -1)%Z then
    preceded_by [console "log" "[Service Worker] Deleting old cache:"]
      (then_ (caches_delete cacheName) (fun deleted => ret (Some deleted)))
  else resolved None.

(** [self.clients.claim()] is called by the listener itself, after
    [event.waitUntil] has been handed the clean-up promise (line 119). *)
Definition activate_listener : Listener (list (option bool)) :=
  let cacheWhitelist := [CACHE_NAME] in
  {| before := [console "log" "[Service Worker] Activating..."];
     extended := Some
       (then_ caches_keys
          (fun cacheNames =>
             await (promise_all (map (delete_unlisted cacheWhitelist) cacheNames))));
     after := [CallClientsClaim];
     thrown := None |}.

End Worker.

(** ** Notions of the specification *)

(** The network gave nothing usable: the fetch was rejected, or it answered
    with no response, a status other than 200, or a type other than
    'basic'. *)
Definition failing_or_invalid (answer : Settled (option Response)) : Prop :=
  match answer with
  | Rejected _ => True
  | Fulfilled None => True
  | Fulfilled (Some r) => status r ≠ 200 ∨ type r ≠ "basic"
  end.

(** In a trace, every deletion of a cache instance comes before the claim
    of the clients. *)
Definition claim_follows_cleanup (t : list HostCall) : Prop :=
  ∀ i j cacheName,
    t !! i = Some CallClientsClaim →
    t !! j = Some (CallCachesDelete cacheName) →
    j < i.

(** *** The listeners' effects in closed form *)

(** The storage once the deletions started for the names [cacheNames] are
    done: every listed name but the current one is gone. *)
Definition swept (st : CacheStorage) (cacheNames : list string) : CacheStorage :=
  foldl (fun s cacheName =>
           if strict_eq CACHE_NAME cacheName then s else storage_delete s cacheName)
        st cacheNames.

(** The calls of the clean-up callback: for each name but the current one,
    the log line and the deletion, in the order of the names. *)
Definition sweep_calls (cacheNames : list string) : list HostCall :=
  concat (map (fun cacheName =>
                 if strict_eq CACHE_NAME cacheName then []
                 else [console "log" "[Service Worker] Deleting old cache:";
                       CallCachesDelete cacheName])
              cacheNames).

(** The storage after one [cache.add]: the response is stored if the
    network gave one that [add] accepts. *)
Definition added (network : Request → Settled (option Response))
    (cache : string) (st : CacheStorage) (url : string) : CacheStorage :=
  match network (request_of_url url) with
  | Fulfilled (Some r) => if addable r then storage_put st cache url r else st
  | _ => st
  end.

(** The warnings of the paths that could not be cached. *)
Definition warnings (network : Request → Settled (option Response))
    (urls : list string) : list HostCall :=
  concat (map (fun url =>
                 match network (request_of_url url) with
                 | Fulfilled (Some r) =>
                     if addable r then []
                     else [console "warn" ("[Service Worker] Failed to cache " +:+ url +:+ ":")]
                 | _ => [console "warn" ("[Service Worker] Failed to cache " +:+ url +:+ ":")]
                 end)
              urls).

(** *** Sample inputs *)

Definition sample_stylesheet : Response :=
  {| status := 200; type := "basic"; body := "body { margin: 0 }" |}.

Definition sample_offline_page : Response :=
  {| status := 200; type := "basic"; body := "<h1>You are offline</h1>" |}.

Definition sample_script : Response :=
  {| status := 200; type := "basic"; body := "console.log(1)" |}.

(** A stale generation next to the current one. *)
Definition sample_storage : CacheStorage :=
  [ ("goldshop-cache-v2", {[ "/static/style.css" := sample_stylesheet ]});
    (CACHE_NAME, {[ "/offline.html" := sample_offline_page ]}) ].

(** The current generation without its offline page. *)
Definition storage_without_offline : CacheStorage :=
  [ (CACHE_NAME, {[ "/static/style.css" := sample_stylesheet ]}) ].

Definition unreachable_network (request : Request) : Settled (option Response) :=
  Rejected (TypeError "Failed to fetch").

(** Everything answers 200 except '/offline.html' (unreachable) and
    '/login' (404). *)
Definition sample_network (request : Request) : Settled (option Response) :=
  if strict_eq (url request) "/offline.html" then Rejected (TypeError "Failed to fetch")
  else if strict_eq (url request) "/login"
       then Fulfilled (Some {| status := 404; type := "basic"; body := "Not Found" |})
       else Fulfilled (Some sample_script).

Definition stylesheet_request : Request :=
  {| url := "/static/style.css"; method := "GET"; mode := "no-cors"; headers := [] |}.

Definition dashboard_navigation : Request :=
  {| url := "/dashboard"; method := "GET"; mode := "navigate";
     headers := [("Accept", "text/html,application/xhtml+xml")] |}.

Definition script_request : Request :=
  {| url := "/static/main.js"; method := "GET"; mode := "no-cors";
     headers := [("accept", "*/*")] |}.

Definition api_request : Request :=
  {| url := "/api/items"; method := "GET"; mode := "cors";
     headers := [("accept", "application/json")] |}.

(** The stylesheet, asked for by a page. *)
Definition dashboard_stylesheet : Request :=
  {| url := "/static/style.css"; method := "GET"; mode := "no-cors";
     headers := [("accept", "text/css,*/*;q=0.1")] |}.

Definition login_navigation : Request :=
  {| url := "/login"; method := "GET"; mode := "navigate";
     headers := [("accept", "text/html")] |}.

(** A page that is not on the manifest. *)
Definition orders_navigation : Request :=
  {| url := "/orders"; method := "GET"; mode := "navigate";
     headers := [("accept", "text/html")] |}.

Definition form_post : Request :=
  {| url := "/login"; method := "POST"; mode := "cors";
     headers := [("accept", "text/html"); ("content-type", "application/x-www-form-urlencoded")] |}.

(** Every path answers 200 except '/login'. *)
Definition login_down_network (request : Request) : Settled (option Response) :=
  if strict_eq (url request) "/login"
  then Fulfilled (Some {| status := 503; type := "basic"; body := "Unavailable" |})
  else Fulfilled (Some sample_script).

(** A call that is neither a fetch nor a write: a log line or the lookup of
    the offline page. *)
Definition quiet_call (c : HostCall) : Prop :=
  (∃ level message, c = console level message) ∨ c = CallCachesMatch offline_request.

(** The network has a response for the path that [cache.add] accepts. *)
Definition servable (network : Request → Settled (option Response))
    (url : string) (r : Response) : Prop :=
  network (request_of_url url) = Fulfilled (Some r) ∧ addable r = true.

(** ** Strings *)

Lemma strict_eq_true a b : strict_eq a b = true ↔ a = b.
Proof. apply String.eqb_eq. Qed.

Lemma strict_eq_false a b : strict_eq a b = false ↔ a ≠ b.
Proof. apply String.eqb_neq. Qed.

Lemma strict_eq_refl a : strict_eq a a = true.
Proof. by apply strict_eq_true. Qed.

Lemma starts_with_spec s sub :
  starts_with s sub = true ↔ ∃ post, s = sub +:+ post.
Proof.
  revert s. induction sub as [|c sub IH]; intros s; simpl.
  - split; [by exists s | done].
  - destruct s as [|d s]; simpl.
    + split; [done | by intros [post ?]].
    + rewrite andb_true_iff, Ascii.eqb_eq, IH. split.
      * intros [-> [post ->]]. by exists post.
      * intros [post Hs]. injection Hs as -> ->. eauto.
Qed.

(** [includes] is substring containment. *)
Lemma includes_spec s sub :
  includes s sub = true ↔ ∃ pre post, s = pre +:+ sub +:+ post.
Proof.
  induction s as [|d s IH]; simpl.
  - rewrite orb_false_r, starts_with_spec. split.
    + intros [post ->]. by exists "", post.
    + intros [pre [post Hs]]. destruct pre; [by exists post | done].
  - rewrite orb_true_iff, IH, starts_with_spec. split.
    + intros [[post ->] | [pre [post ->]]].
      * by exists "", post.
      * by exists (String d pre), post.
    + intros [pre [post Hs]]. destruct pre as [|e pre]; simpl in Hs.
      * left. by exists post.
      * right. injection Hs as -> ->. eauto.
Qed.

(** The whitelist of the activate listener holds one name. *)
Lemma indexOf_singleton a x :
  (indexOf [a] x =? -1)%Z = negb (strict_eq a x).
Proof. unfold indexOf. simpl. by destruct (strict_eq a x). Qed.

(** ** The navigation test *)

(** [headers.get] answers [null] exactly when no header has that name. *)
Lemma headers_get_None hs name :
  headers_get hs name = None ↔ ∀ h, h ∈ hs → lower (fst h) ≠ lower name.
Proof.
  unfold headers_get, header_values. induction hs as [|h hs IH].
  - split; [by intros _ ? ?%elem_of_nil | done].
  - rewrite filter_cons. destruct (decide (lower h.1 = lower name)) as [Heq|Hne].
    + cbn [map]. split; [by destruct (map snd _) | ].
      intros Hall. destruct (Hall h); [by left | done].
    + rewrite IH. split.
      * intros Hall h' [->|Hin]%elem_of_cons; [done | by apply Hall].
      * intros Hall h' Hin. apply Hall. by right.
Qed.

Lemma isHtmlNavigation_true request :
  isHtmlNavigation request = Fulfilled true ↔
  mode request = "navigate" ∨
  (method request = "GET" ∧
   ∃ accept, headers_get (headers request) "accept" = Some accept
             ∧ includes accept "text/html" = true).
Proof.
  unfold isHtmlNavigation.
  destruct (strict_eq (mode request) "navigate") eqn:Hmode.
  { apply strict_eq_true in Hmode. split; [by left | done]. }
  apply strict_eq_false in Hmode.
  destruct (strict_eq (method request) "GET") eqn:Hmeth.
  - apply strict_eq_true in Hmeth.
    destruct (headers_get (headers request) "accept") as [accept|] eqn:Hacc.
    + split.
      * intros [= Hinc]. right. eauto.
      * intros [? | [_ [a [[= <-] Hinc]]]]; [done | by rewrite Hinc].
    + split; [done|]. by intros [? | [_ [a [? _]]]].
  - apply strict_eq_false in Hmeth. split; [done|].
    by intros [? | [? _]].
Qed.

(** ** The fetch listener, case by case *)

(** Unfolds the promise combinators down to the host's answers. *)
Ltac run_promise :=
  cbv [respond then_ catch_ preceded_by resolved await detach handle bind host
       fetch cache_add caches_match caches_open caches_keys caches_delete cache_put
       settle issued ret throw log clone].

Section FetchCases.

Variable network : Request -> Settled (option Response).
Variable request : Request.
Variable st : CacheStorage.

Lemma invalid_test_false (r : Response) :
  negb (status r =? 200) || negb (strict_eq (type r) "basic") = false ↔
  status r = 200 ∧ type r = "basic".
Proof.
  rewrite orb_false_iff, !negb_false_iff, Nat.eqb_eq, strict_eq_true. done.
Qed.

Lemma invalid_test_true (r : Response) :
  negb (status r =? 200) || negb (strict_eq (type r) "basic") = true ↔
  status r ≠ 200 ∨ type r ≠ "basic".
Proof.
  rewrite orb_true_iff, !negb_true_iff, Nat.eqb_neq, strict_eq_false. done.
Qed.

(** When the navigation test throws, nothing else happens. *)
Lemma dispatch_fetch_thrown e :
  isHtmlNavigation request = Rejected e →
  dispatch (fetch_listener network request) st =
    {| outcome := None; storage := st; trace := []; uncaught := Some e |}.
Proof. intros Hnav. unfold fetch_listener. by rewrite Hnav. Qed.

(** Otherwise the listener looks the request up and hands [respond] to
    [event.respondWith]. *)
Lemma dispatch_fetch_responds nav :
  isHtmlNavigation request = Fulfilled nav →
  dispatch (fetch_listener network request) st =
    let '(r, st', t) := settle (respond network nav request) st in
    {| outcome := Some r; storage := st';
       trace := CallCachesMatch request :: t; uncaught := None |}.
Proof.
  intros Hnav. unfold fetch_listener. rewrite Hnav. unfold dispatch. simpl.
  by destruct (bind _ _ st) as [[r st'] t].
Qed.

Lemma respond_hit nav cached :
  storage_match st request = Some cached →
  settle (respond network nav request) st =
    (Fulfilled (Some cached), st,
     [console "log" ("[Service Worker] Serving from cache: " +:+ url request)]).
Proof. intros Hhit. run_promise. by rewrite Hhit. Qed.

Lemma respond_miss_unusable nav :
  storage_match st request = None →
  failing_or_invalid (network request) →
  ∃ t,
    settle (respond network nav request) st =
      (if nav then Fulfilled (storage_match st offline_request) else network request,
       st, CallFetch request :: t).
Proof.
  intros Hmiss Hnet. run_promise. rewrite Hmiss.
  destruct (network request) as [[received|]|e]; simpl in Hnet.
  - apply invalid_test_true in Hnet. rewrite Hnet. destruct nav; simpl; eauto.
  - destruct nav; simpl; eauto.
  - destruct nav; simpl; eauto.
Qed.

Lemma respond_miss_valid nav received :
  storage_match st request = None →
  network request = Fulfilled (Some received) →
  status received = 200 →
  type received = "basic" →
  settle (respond network nav request) st =
    if strict_eq (method request) "GET" && negb (includes (url request) "/api/")
    then
      (Fulfilled (Some received),
       storage_put (storage_open st CACHE_NAME) CACHE_NAME (url request) received,
       [CallFetch request; CallCachesOpen CACHE_NAME;
        console "log" ("[Service Worker] Caching new resource: " +:+ url request);
        CallCachePut CACHE_NAME request received])
    else
      (Fulfilled (Some received), storage_open st CACHE_NAME,
       [CallFetch request; CallCachesOpen CACHE_NAME]).
Proof.
  intros Hmiss Hnet Hstatus Htype. run_promise. rewrite Hmiss, Hnet.
  assert (negb (status received =? 200) || negb (strict_eq (type received) "basic")
          = false) as -> by by apply invalid_test_false.
  destruct (strict_eq (method request) "GET") eqn:Hget; simpl; [|done].
  by destruct (includes (url request) "/api/").
Qed.

End FetchCases.

(** ** The cache storage *)

Lemma storage_lookup_app st1 st2 cacheName :
  storage_lookup (st1 ++ st2) cacheName =
    match storage_lookup st1 cacheName with
    | Some c => Some c
    | None => storage_lookup st2 cacheName
    end.
Proof.
  induction st1 as [|[n c] st1 IH]; simpl; [done|].
  by destruct (strict_eq n cacheName).
Qed.

Lemma storage_lookup_keys st cacheName :
  is_Some (storage_lookup st cacheName) ↔ cacheName ∈ storage_keys st.
Proof.
  induction st as [|[n c] st IH]; simpl.
  - split; [by intros [? ?] | by intros ?%elem_of_nil].
  - rewrite elem_of_cons. destruct (strict_eq n cacheName) eqn:Hn.
    + apply strict_eq_true in Hn. split; [by left | eauto].
    + apply strict_eq_false in Hn. rewrite IH.
      split; [by right | by intros [? | ?]].
Qed.

(** Opening never adds or changes an entry, and the opened instance exists
    afterwards. *)
Lemma cache_entry_open st cacheName other key :
  cache_entry (storage_open st cacheName) other key = cache_entry st other key.
Proof.
  unfold cache_entry, storage_open.
  destruct (storage_lookup st cacheName) eqn:Hopen; [done|].
  rewrite storage_lookup_app. destruct (storage_lookup st other) eqn:Hother; [done|].
  simpl. destruct (strict_eq cacheName other) eqn:Hn; [|done].
  simpl. apply lookup_empty.
Qed.

Lemma storage_lookup_open st cacheName :
  is_Some (storage_lookup (storage_open st cacheName) cacheName).
Proof.
  unfold storage_open. destruct (storage_lookup st cacheName) eqn:Hopen; [by eauto|].
  rewrite storage_lookup_app, Hopen. simpl. rewrite strict_eq_refl. eauto.
Qed.

Lemma storage_keys_open st cacheName other :
  other ∈ storage_keys (storage_open st cacheName) ↔
  other = cacheName ∨ other ∈ storage_keys st.
Proof.
  unfold storage_open. destruct (storage_lookup st cacheName) eqn:Hopen.
  - assert (cacheName ∈ storage_keys st) by (apply storage_lookup_keys; eauto).
    split; [by right | by intros [-> | ?]].
  - unfold storage_keys. rewrite map_app, elem_of_app. simpl.
    rewrite list_elem_of_singleton. tauto.
Qed.

(** [put] stores under the key in the named instance and leaves every
    other entry alone. *)
Lemma storage_lookup_put st cacheName key r other :
  storage_lookup (storage_put st cacheName key r) other =
    if strict_eq cacheName other
    then (λ c, <[key := r]> c) <$> storage_lookup st other
    else storage_lookup st other.
Proof.
  induction st as [|[n c] st IH]; simpl.
  - by destruct (strict_eq cacheName other).
  - destruct (strict_eq n cacheName) eqn:Hn; simpl.
    + apply strict_eq_true in Hn. subst n.
      by destruct (strict_eq cacheName other).
    + destruct (strict_eq n other) eqn:Hno; [|done].
      apply strict_eq_true in Hno. subst n.
      destruct (strict_eq cacheName other) eqn:Hco; [|done].
      apply strict_eq_true in Hco. subst other. by rewrite strict_eq_refl in Hn.
Qed.

Lemma cache_entry_put_eq st cacheName key r :
  is_Some (storage_lookup st cacheName) →
  cache_entry (storage_put st cacheName key r) cacheName key = Some r.
Proof.
  intros [c Hc]. unfold cache_entry.
  rewrite storage_lookup_put, strict_eq_refl, Hc. simpl. apply lookup_insert_eq.
Qed.

Lemma cache_entry_put_ne st cacheName key r other key' :
  other ≠ cacheName ∨ key' ≠ key →
  cache_entry (storage_put st cacheName key r) other key' = cache_entry st other key'.
Proof.
  intros Hne. unfold cache_entry. rewrite storage_lookup_put.
  destruct (strict_eq cacheName other) eqn:Hn; [|done].
  apply strict_eq_true in Hn. subst other.
  destruct (storage_lookup st cacheName) as [c|]; [|done]. simpl.
  apply lookup_insert_ne. by destruct Hne as [? | ?].
Qed.

Lemma storage_keys_put st cacheName key r :
  storage_keys (storage_put st cacheName key r) = storage_keys st.
Proof.
  unfold storage_keys. induction st as [|[n c] st IH]; simpl; [done|].
  destruct (strict_eq n cacheName); simpl; [done | by rewrite IH].
Qed.

(** Deleting removes the name and nothing else. *)
Lemma storage_lookup_delete st cacheName other :
  storage_lookup (storage_delete st cacheName) other =
    if strict_eq cacheName other then None else storage_lookup st other.
Proof.
  induction st as [|[n c] st IH]; simpl.
  - by destruct (strict_eq cacheName other).
  - destruct (strict_eq n cacheName) eqn:Hn; simpl.
    + apply strict_eq_true in Hn. subst n. rewrite IH.
      by destruct (strict_eq cacheName other).
    + rewrite IH. destruct (strict_eq n other) eqn:Hno; [|done].
      apply strict_eq_true in Hno. subst n.
      destruct (strict_eq cacheName other) eqn:Hco; [|done].
      apply strict_eq_true in Hco. subst other. by rewrite strict_eq_refl in Hn.
Qed.

(** [caches.match] finds nothing exactly when no instance holds the key. *)
Lemma match_all_None st key :
  match_all st key = None ↔ ∀ cacheName c, (cacheName, c) ∈ st → c !! key = None.
Proof.
  induction st as [|[n c] st IH]; simpl.
  - split; [by intros _ ? ? ?%elem_of_nil | done].
  - destruct (c !! key) as [r|] eqn:Hc.
    + split; [done|]. intros Hall. specialize (Hall n c). rewrite Hc in Hall.
      apply Hall. by left.
    + rewrite IH. split.
      * intros Hall n' c' [[= -> ->] | Hin]%elem_of_cons; [done | eauto].
      * intros Hall n' c' Hin. apply (Hall n' c'). by right.
Qed.

(** What [caches.match] returns is an entry of some instance. *)
Lemma match_all_Some st key r :
  match_all st key = Some r → ∃ cacheName c, (cacheName, c) ∈ st ∧ c !! key = Some r.
Proof.
  induction st as [|[n c] st IH]; simpl; [done|].
  destruct (c !! key) as [r'|] eqn:Hc.
  - intros [= ->]. exists n, c. split; [by left | done].
  - intros [n' [c' [Hin Hr]]]%IH. exists n', c'. split; [by right | done].
Qed.

(** ** The fetch listener *)

(** A request served from the cache never reaches the network (the case
    lines 53-56 of sw.js), whenever the navigation test has completed. *)
Lemma cache_precedence network request st nav cached :
  isHtmlNavigation request = Fulfilled nav →
  storage_match st request = Some cached →
  dispatch (fetch_listener network request) st =
    {| outcome := Some (Fulfilled (Some cached)); storage := st;
       trace := [CallCachesMatch request;
                 console "log" ("[Service Worker] Serving from cache: " +:+ url request)];
       uncaught := None |}.
Proof.
  intros Hnav Hhit. rewrite (dispatch_fetch_responds _ _ _ nav Hnav).
  by rewrite (respond_hit _ _ _ nav cached Hhit).
Qed.

(** The result of the fallback branches (lines 65-69 and 91-96). *)
Lemma fallback_outcome network request st nav :
  isHtmlNavigation request = Fulfilled nav →
  storage_match st request = None →
  failing_or_invalid (network request) →
  outcome (dispatch (fetch_listener network request) st) =
    Some (if nav then Fulfilled (storage_match st offline_request)
          else network request)
  ∧ storage (dispatch (fetch_listener network request) st) = st.
Proof.
  intros Hnav Hmiss Hnet. rewrite (dispatch_fetch_responds _ _ _ nav Hnav).
  destruct (respond_miss_unusable network request st nav Hmiss Hnet) as [t ->].
  done.
Qed.

(** The navigation test completes for every request that carries an Accept
    header. *)
Lemma isHtmlNavigation_completes request accept :
  headers_get (headers request) "accept" = Some accept →
  ∃ nav, isHtmlNavigation request = Fulfilled nav.
Proof.
  intros Haccept. unfold isHtmlNavigation. rewrite Haccept.
  destruct (strict_eq (mode request) "navigate"); [by eauto|].
  destruct (strict_eq (method request) "GET"); eauto.
Qed.

(** C1: a request that carries an Accept header, as every request the host
    hands to the listener does, and that has a matching entry in some cache
    instance, of whatever generation, is answered with that entry as it is
    stored; the storage is left as it was and the only host calls are the
    lookup and a log line, so no fetch is made. *)
Theorem cached_entry_is_served network request st accept cached :
  headers_get (headers request) "accept" = Some accept →
  storage_match st request = Some cached →
  dispatch (fetch_listener network request) st =
    {| outcome := Some (Fulfilled (Some cached)); storage := st;
       trace := [CallCachesMatch request;
                 console "log" ("[Service Worker] Serving from cache: " +:+ url request)];
       uncaught := None |}
  ∧ (∀ fetched,
       CallFetch fetched ∉ trace (dispatch (fetch_listener network request) st))
  ∧ ∃ cacheName c, (cacheName, c) ∈ st ∧ c !! url request = Some cached.
Proof.
  intros Haccept Hhit.
  destruct (isHtmlNavigation_completes request accept Haccept) as [nav Hnav].
  rewrite (cache_precedence network request st nav cached Hnav Hhit).
  split; [done|]. split.
  - intros fetched Hin. cbn [trace] in Hin.
    repeat (apply elem_of_cons in Hin as [Hin|Hin]); try discriminate.
    by apply elem_of_nil in Hin.
  - unfold storage_match in Hhit.
    destruct (strict_eq (method request) "GET"); [|done].
    by apply match_all_Some.
Qed.

Lemma cached_entry_is_served_witness :
  dispatch (fetch_listener unreachable_network dashboard_stylesheet) sample_storage =
    {| outcome := Some (Fulfilled (Some sample_stylesheet)); storage := sample_storage;
       trace := [CallCachesMatch dashboard_stylesheet;
                 console "log" "[Service Worker] Serving from cache: /static/style.css"];
       uncaught := None |}.
Proof.
  apply (cached_entry_is_served unreachable_network dashboard_stylesheet sample_storage
           "text/css,*/*;q=0.1" sample_stylesheet);
    [reflexivity | vm_compute; reflexivity].
Defined.

(** C2: a navigation request that is not cached and gets nothing usable
    from the network is answered with the cached '/offline.html'. *)
Theorem offline_fallback_for_navigation network request st page :
  isHtmlNavigation request = Fulfilled true →
  storage_match st request = None →
  failing_or_invalid (network request) →
  storage_match st offline_request = Some page →
  outcome (dispatch (fetch_listener network request) st) = Some (Fulfilled (Some page)).
Proof.
  intros Hnav Hmiss Hnet Hpage.
  destruct (fallback_outcome network request st true Hnav Hmiss Hnet) as [-> _].
  by rewrite Hpage.
Qed.

Lemma offline_fallback_for_navigation_witness :
  outcome (dispatch (fetch_listener unreachable_network dashboard_navigation) sample_storage)
  = Some (Fulfilled (Some sample_offline_page)).
Proof.
  apply (offline_fallback_for_navigation unreachable_network dashboard_navigation
           sample_storage sample_offline_page);
    [reflexivity | vm_compute; reflexivity | exact I | vm_compute; reflexivity].
Defined.

(** C3: for a request that is not a navigation and is not cached, a
    rejected fetch rejects the response with the same reason; the offline
    page is not looked up and the storage is left as it was. *)
Theorem network_failure_propagates network request st reason :
  isHtmlNavigation request = Fulfilled false →
  storage_match st request = None →
  network request = Rejected reason →
  dispatch (fetch_listener network request) st =
    {| outcome := Some (Rejected reason); storage := st;
       trace := [CallCachesMatch request; CallFetch request;
                 console "error" ("[Service Worker] Fetch failed for "
                                  +:+ url request +:+ ":")];
       uncaught := None |}.
Proof.
  intros Hnav Hmiss Hnet. rewrite (dispatch_fetch_responds _ _ _ false Hnav).
  run_promise. by rewrite Hmiss, Hnet.
Qed.

Lemma network_failure_propagates_witness :
  dispatch (fetch_listener unreachable_network script_request) sample_storage =
    {| outcome := Some (Rejected (TypeError "Failed to fetch"));
       storage := sample_storage;
       trace := [CallCachesMatch script_request; CallFetch script_request;
                 console "error" "[Service Worker] Fetch failed for /static/main.js:"];
       uncaught := None |}.
Proof.
  apply (network_failure_propagates unreachable_network script_request sample_storage
           (TypeError "Failed to fetch"));
    [reflexivity | vm_compute; reflexivity | reflexivity].
Defined.

(** C4: after the listener has fetched a request that was not cached and
    the network answered 200 with a 'basic' response, a GET whose URL has no
    '/api/' in it is stored under the request in the current generation; a
    URL with '/api/' in it leaves every entry of every instance as it was. *)
Theorem selective_write_through network request st received :
  CallFetch request ∈ trace (dispatch (fetch_listener network request) st) →
  network request = Fulfilled (Some received) →
  status received = 200 →
  type received = "basic" →
  storage_match st request = None →
  (method request = "GET" →
   includes (url request) "/api/" = false →
   cache_entry (storage (dispatch (fetch_listener network request) st))
     CACHE_NAME (url request) = Some received)
  ∧ (includes (url request) "/api/" = true →
     ∀ cacheName key,
       cache_entry (storage (dispatch (fetch_listener network request) st)) cacheName key
       = cache_entry st cacheName key).
Proof.
  intros Hfetched Hnet Hstatus Htype Hmiss.
  destruct (isHtmlNavigation request) as [nav|e] eqn:Hnav.
  2: { rewrite (dispatch_fetch_thrown _ _ _ e Hnav) in Hfetched.
       by apply elem_of_nil in Hfetched. }
  clear Hfetched. rewrite (dispatch_fetch_responds _ _ _ nav Hnav).
  rewrite (respond_miss_valid _ _ _ nav received Hmiss Hnet Hstatus Htype).
  split.
  - intros Hget Hapi. apply strict_eq_true in Hget. rewrite Hget, Hapi. simpl.
    apply cache_entry_put_eq, storage_lookup_open.
  - intros Hapi cacheName key. rewrite Hapi, andb_false_r. simpl.
    apply cache_entry_open.
Qed.

Lemma selective_write_through_witness :
  cache_entry (storage (dispatch (fetch_listener sample_network script_request)
                          sample_storage))
    CACHE_NAME "/static/main.js" = Some sample_script
  ∧ ∀ cacheName key,
      cache_entry (storage (dispatch (fetch_listener sample_network api_request)
                              sample_storage)) cacheName key
      = cache_entry sample_storage cacheName key.
Proof.
  split.
  - apply (selective_write_through sample_network script_request sample_storage
             sample_script);
      [vm_compute; set_solver | reflexivity | reflexivity | reflexivity
      | vm_compute; reflexivity | reflexivity | vm_compute; reflexivity].
  - apply (selective_write_through sample_network api_request sample_storage
             sample_script);
      [vm_compute; set_solver | reflexivity | reflexivity | reflexivity
      | vm_compute; reflexivity | vm_compute; reflexivity].
Defined.

(** C8: the request counts as an HTML navigation exactly when its mode is
    'navigate', or its method is GET and its Accept value has 'text/html' in
    it; and when the network gives nothing usable for a request that is not
    cached, the outcome is the lookup of the offline page if the test said
    yes and the network's own outcome if it said no. *)
Theorem navigation_test_decides_fallback network request st :
  (isHtmlNavigation request = Fulfilled true ↔
   mode request = "navigate" ∨
   (method request = "GET" ∧
    ∃ accept, headers_get (headers request) "accept" = Some accept
              ∧ includes accept "text/html" = true))
  ∧ ∀ nav,
      isHtmlNavigation request = Fulfilled nav →
      storage_match st request = None →
      failing_or_invalid (network request) →
      outcome (dispatch (fetch_listener network request) st) =
        Some (if nav then Fulfilled (storage_match st offline_request)
              else network request).
Proof.
  split; [apply isHtmlNavigation_true|].
  intros nav Hnav Hmiss Hnet.
  by destruct (fallback_outcome network request st nav Hnav Hmiss Hnet) as [-> _].
Qed.

Lemma navigation_test_decides_fallback_witness :
  outcome (dispatch (fetch_listener unreachable_network dashboard_navigation)
             sample_storage)
  = Some (Fulfilled (storage_match sample_storage offline_request))
  ∧ outcome (dispatch (fetch_listener unreachable_network script_request) sample_storage)
    = Some (unreachable_network script_request).
Proof.
  split.
  - apply (proj2 (navigation_test_decides_fallback unreachable_network
                    dashboard_navigation sample_storage) true);
      [reflexivity | vm_compute; reflexivity | exact I].
  - apply (proj2 (navigation_test_decides_fallback unreachable_network
                    script_request sample_storage) false);
      [reflexivity | vm_compute; reflexivity | exact I].
Defined.

(** C9: a GET request whose mode is not 'navigate' and that has no Accept
    header makes the navigation test throw a TypeError; the listener ends
    there, with no cache lookup, no fetch and no response. *)
Theorem navigation_test_throws_without_accept network request st :
  mode request ≠ "navigate" →
  method request = "GET" →
  headers_get (headers request) "accept" = None →
  dispatch (fetch_listener network request) st =
    {| outcome := None; storage := st; trace := [];
       uncaught := Some (TypeError "Cannot read properties of null (reading 'includes')") |}.
Proof.
  intros Hmode Hget Hnone. apply dispatch_fetch_thrown. unfold isHtmlNavigation.
  apply strict_eq_false in Hmode. apply strict_eq_true in Hget.
  by rewrite Hmode, Hget, Hnone.
Qed.

Lemma navigation_test_throws_without_accept_witness :
  dispatch (fetch_listener sample_network stylesheet_request) storage_without_offline =
    {| outcome := None; storage := storage_without_offline; trace := [];
       uncaught := Some (TypeError "Cannot read properties of null (reading 'includes')") |}.
Proof.
  apply (navigation_test_throws_without_accept sample_network stylesheet_request
           storage_without_offline);
    [vm_compute; discriminate | reflexivity | reflexivity].
Defined.

(** C10: when no cache instance holds '/offline.html', a navigation request
    that is not cached and gets nothing usable from the network is answered
    with [undefined]. *)
Theorem fallback_without_offline_page network request st :
  isHtmlNavigation request = Fulfilled true →
  storage_match st request = None →
  failing_or_invalid (network request) →
  (∀ cacheName c, (cacheName, c) ∈ st → c !! "/offline.html" = None) →
  outcome (dispatch (fetch_listener network request) st) = Some (Fulfilled None).
Proof.
  intros Hnav Hmiss Hnet Habsent.
  destruct (fallback_outcome network request st true Hnav Hmiss Hnet) as [-> _].
  do 2 f_equal. unfold storage_match, offline_request. simpl.
  by apply match_all_None.
Qed.

Lemma fallback_without_offline_page_witness :
  outcome (dispatch (fetch_listener unreachable_network dashboard_navigation)
             storage_without_offline)
  = Some (Fulfilled None).
Proof.
  apply (fallback_without_offline_page unreachable_network dashboard_navigation
           storage_without_offline);
    [reflexivity | vm_compute; reflexivity | exact I |].
  intros cacheName c Hin. apply list_elem_of_singleton in Hin.
  injection Hin as _ ->. vm_compute. reflexivity.
Defined.

(** ** The activate listener *)

Lemma sweep_issued cacheNames :
  concat (map issued (map (delete_unlisted [CACHE_NAME]) cacheNames))
  = sweep_calls cacheNames.
Proof.
  unfold sweep_calls. induction cacheNames as [|n ns IH]; cbn [map concat]; [done|].
  rewrite IH. unfold delete_unlisted. rewrite indexOf_singleton.
  by destruct (strict_eq CACHE_NAME n).
Qed.

Lemma swept_cons st cacheName cacheNames :
  swept st (cacheName :: cacheNames) =
    swept (if strict_eq CACHE_NAME cacheName then st else storage_delete st cacheName)
      cacheNames.
Proof. done. Qed.

Lemma sweep_settles cacheNames st :
  ∃ results,
    settle_all (map settle (map (delete_unlisted [CACHE_NAME]) cacheNames)) st
    = (Fulfilled results, swept st cacheNames, []).
Proof.
  revert st. induction cacheNames as [|n ns IH]; intros st; cbn [map settle_all].
  - by exists [].
  - unfold delete_unlisted at 1. rewrite indexOf_singleton.
    destruct (strict_eq CACHE_NAME n) eqn:Hn; cbn [negb].
    + destruct (IH st) as [results Hrest].
      unfold resolved at 1. cbn [settle]. unfold ret at 1.
      rewrite Hrest, swept_cons, Hn. eauto.
    + destruct (IH (storage_delete st n)) as [results Hrest].
      unfold preceded_by, then_, caches_delete. cbn [settle].
      unfold bind, host. cbn [settle]. unfold ret at 1.
      rewrite Hrest, swept_cons, Hn. eauto.
Qed.

Lemma dispatch_activate st :
  ∃ results,
    dispatch activate_listener st =
      {| outcome := Some (Fulfilled results);
         storage := swept st (storage_keys st);
         trace := [console "log" "[Service Worker] Activating..."; CallCachesKeys;
                   CallClientsClaim] ++ sweep_calls (storage_keys st);
         uncaught := None |}.
Proof.
  destruct (sweep_settles (storage_keys st) st) as [results Hsettle].
  exists results. unfold dispatch, activate_listener. simpl.
  unfold bind, await. simpl. rewrite Hsettle, sweep_issued.
  by rewrite !app_nil_r.
Qed.

Lemma storage_lookup_swept st cacheNames other :
  storage_lookup (swept st cacheNames) other =
    if bool_decide (other ∈ cacheNames) && negb (strict_eq CACHE_NAME other)
    then None else storage_lookup st other.
Proof.
  revert st. induction cacheNames as [|n ns IH]; intros st.
  { by rewrite bool_decide_eq_false_2 by apply not_elem_of_nil. }
  rewrite swept_cons, IH. clear IH.
  destruct (strict_eq CACHE_NAME other) eqn:Hcur.
  - rewrite !andb_false_r. destruct (strict_eq CACHE_NAME n) eqn:Hn; [done|].
    rewrite storage_lookup_delete.
    destruct (strict_eq n other) eqn:Hno; [|done].
    apply strict_eq_true in Hno, Hcur. subst. by rewrite strict_eq_refl in Hn.
  - rewrite !andb_true_r.
    destruct (decide (other ∈ ns)) as [Hin|Hin].
    + rewrite (bool_decide_eq_true_2 _ Hin).
      rewrite bool_decide_eq_true_2; [done | by right].
    + rewrite (bool_decide_eq_false_2 _ Hin).
      destruct (strict_eq CACHE_NAME n) eqn:Hn.
      * apply strict_eq_true in Hn. subst n.
        rewrite bool_decide_eq_false_2; [done|].
        intros [->|?]%elem_of_cons; [by rewrite strict_eq_refl in Hcur | done].
      * rewrite storage_lookup_delete.
        destruct (strict_eq n other) eqn:Hno.
        -- apply strict_eq_true in Hno. subst n.
           rewrite bool_decide_eq_true_2; [done | by left].
        -- apply strict_eq_false in Hno.
           rewrite bool_decide_eq_false_2; [done|].
           by intros [->|?]%elem_of_cons.
Qed.

Lemma sweep_calls_spare_current cacheNames :
  (CallCachesDelete CACHE_NAME ∉ sweep_calls cacheNames)
  ∧ (CallClientsClaim ∉ sweep_calls cacheNames).
Proof.
  unfold sweep_calls.
  induction cacheNames as [|n ns [IH1 IH2]]; cbn [map concat].
  - split; apply not_elem_of_nil.
  - destruct (strict_eq CACHE_NAME n) eqn:Hn; cbn [app]; [done|].
    apply strict_eq_false in Hn.
    split; intros Hin; repeat (apply elem_of_cons in Hin as [Hin|Hin]);
      try discriminate; try done.
    injection Hin as Hsame. done.
Qed.

(** The names left by the clean-up: the current one, if it was there. *)
Lemma sweep_names st cacheName :
  cacheName ∈ storage_keys (swept st (storage_keys st))
  ↔ cacheName = CACHE_NAME ∧ cacheName ∈ storage_keys st.
Proof.
  rewrite <- !storage_lookup_keys, storage_lookup_swept.
  destruct (strict_eq CACHE_NAME cacheName) eqn:Hcur.
  - apply strict_eq_true in Hcur. subst cacheName. rewrite andb_false_r. tauto.
  - apply strict_eq_false in Hcur. rewrite andb_true_r.
    destruct (decide (cacheName ∈ storage_keys st)) as [Hin|Hin].
    + rewrite (bool_decide_eq_true_2 _ Hin).
      split; [by intros [? ?] | by intros [-> _]].
    + rewrite (bool_decide_eq_false_2 _ Hin).
      split; [by intros ?%storage_lookup_keys | by intros [-> _]].
Qed.

(** C5: after the clean-up no name other than the current generation is
    left; the current instance is the one that was there, and no deletion
    was ever asked for it; so, the current generation being there at
    activation, the names left are exactly the current one. *)
Theorem generation_sweep st :
  (∀ cacheName,
     cacheName ∈ storage_keys (storage (dispatch activate_listener st)) →
     cacheName = CACHE_NAME)
  ∧ storage_lookup (storage (dispatch activate_listener st)) CACHE_NAME
    = storage_lookup st CACHE_NAME
  ∧ (CallCachesDelete CACHE_NAME ∉ trace (dispatch activate_listener st))
  ∧ (CACHE_NAME ∈ storage_keys st →
     ∀ cacheName,
       cacheName ∈ storage_keys (storage (dispatch activate_listener st))
       ↔ cacheName = CACHE_NAME).
Proof.
  destruct (dispatch_activate st) as [results ->]. cbn [storage trace].
  split; [|split; [|split]].
  - intros cacheName Hin. by apply sweep_names in Hin as [-> _].
  - by rewrite storage_lookup_swept, strict_eq_refl, andb_false_r.
  - intros Hin. repeat (apply elem_of_cons in Hin as [Hin|Hin]); try discriminate.
    by apply sweep_calls_spare_current in Hin.
  - intros Hcurrent cacheName. rewrite sweep_names.
    split; [tauto | by intros ->].
Qed.

Lemma generation_sweep_witness :
  "goldshop-cache-v2" ∈ storage_keys sample_storage
  ∧ ∀ cacheName,
      cacheName ∈ storage_keys (storage (dispatch activate_listener sample_storage))
      ↔ cacheName = CACHE_NAME.
Proof.
  split; [vm_compute; set_solver|].
  apply (proj2 (proj2 (proj2 (generation_sweep sample_storage)))).
  vm_compute. set_solver.
Defined.

(** C7, as stated, fails: with a stale generation in the storage, the
    deletion is asked for after the clients were claimed. *)
Lemma claim_does_not_follow_cleanup :
  ¬ claim_follows_cleanup (trace (dispatch activate_listener sample_storage)).
Proof.
  intros Hfollows.
  pose proof (Hfollows 2 4 "goldshop-cache-v2" eq_refl eq_refl). lia.
Qed.

(** C7, amended: the listener logs, asks for the cache names and claims the
    clients before it returns; the deletions are asked for afterwards, by
    the callback of [caches.keys()], and the promise handed to
    [event.waitUntil] is fulfilled once they are done. *)
Theorem claim_precedes_cleanup st :
  trace (dispatch activate_listener st) =
    [console "log" "[Service Worker] Activating..."; CallCachesKeys; CallClientsClaim]
    ++ sweep_calls (storage_keys st)
  ∧ (CallClientsClaim ∉ sweep_calls (storage_keys st))
  ∧ ∃ results, outcome (dispatch activate_listener st) = Some (Fulfilled results).
Proof.
  destruct (dispatch_activate st) as [results ->]. simpl.
  split; [done|]. split; [apply sweep_calls_spare_current | eauto].
Qed.

(** ** The install listener *)

Section Install.

Variable network : Request -> Settled (option Response).

Lemma precache_issued cache urls :
  concat (map issued (map (cache_or_warn network cache) urls))
  = map (CallCacheAdd cache) urls.
Proof. induction urls as [|u us IH]; cbn [map concat]; [done | by rewrite IH]. Qed.

(** One attempt always settles fulfilled: a failure is caught and logged. *)
Lemma cache_or_warn_settles cache url st :
  settle (cache_or_warn network cache url) st
  = (Fulfilled (), added network cache st url, warnings network [url]).
Proof.
  unfold warnings, added. cbn [map concat]. rewrite app_nil_r.
  unfold cache_or_warn, catch_, cache_add, host. cbn [settle]. unfold handle, log.
  destruct (network (request_of_url url)) as [[r|]|e]; [|done..].
  by destruct (addable r).
Qed.

Lemma warnings_cons url urls :
  warnings network (url :: urls) = warnings network [url] ++ warnings network urls.
Proof. unfold warnings. cbn [map concat]. by rewrite app_nil_r. Qed.

(** All attempts run, whatever the others did. *)
Lemma precache_settles cache urls st :
  settle_all (map settle (map (cache_or_warn network cache) urls)) st
  = (Fulfilled (map (λ _, ()) urls), foldl (added network cache) st urls,
     warnings network urls).
Proof.
  revert st. induction urls as [|u us IH]; intros st; cbn [map settle_all foldl].
  - done.
  - rewrite cache_or_warn_settles, IH. by rewrite (warnings_cons u us).
Qed.

Lemma dispatch_install st :
  dispatch (install_listener network) st =
    {| outcome := Some (Fulfilled (Some (map (λ _, ()) urlsToCache)));
       storage := foldl (added network CACHE_NAME) (storage_open st CACHE_NAME) urlsToCache;
       trace := [console "log" "[Service Worker] Installing...";
                 CallCachesOpen CACHE_NAME;
                 console "log" "[Service Worker] Caching essential assets:"]
                ++ map (CallCacheAdd CACHE_NAME) urlsToCache
                ++ warnings network urlsToCache;
       uncaught := None |}.
Proof.
  unfold dispatch, install_listener. cbn [extended before after thrown].
  unfold catch_, then_, caches_open, host. cbn [settle issued].
  unfold handle, bind at 1. unfold bind at 1, log at 1. unfold bind, await, promise_all.
  cbn [settle issued]. rewrite precache_settles, precache_issued.
  unfold ret. cbn [app]. by rewrite !app_nil_r.
Qed.

Lemma added_keeps_instance cache st url :
  is_Some (storage_lookup st cache) →
  is_Some (storage_lookup (added network cache st url) cache).
Proof.
  intros [c Hc]. unfold added.
  destruct (network (request_of_url url)) as [[r|]|e]; [|eauto..].
  destruct (addable r); [|eauto].
  rewrite storage_lookup_put, strict_eq_refl, Hc. simpl. eauto.
Qed.

Lemma precache_entry cache urls st url received :
  is_Some (storage_lookup st cache) →
  network (request_of_url url) = Fulfilled (Some received) →
  addable received = true →
  url ∈ urls ∨ cache_entry st cache url = Some received →
  cache_entry (foldl (added network cache) st urls) cache url = Some received.
Proof.
  intros Hopen Hnet Hok. revert st Hopen.
  induction urls as [|u us IH]; intros st Hopen Hin; cbn [foldl].
  - destruct Hin as [Hin|Hin]; [by apply elem_of_nil in Hin | done].
  - apply IH; [by apply added_keeps_instance|].
    destruct (decide (u = url)) as [->|Hne].
    + right. unfold added. rewrite Hnet, Hok. by apply cache_entry_put_eq.
    + destruct Hin as [[?|Hin]%elem_of_cons | Hin]; [congruence | by left |].
      right. unfold added.
      destruct (network (request_of_url u)) as [[r|]|e]; [|done..].
      destruct (addable r); [|done].
      rewrite cache_entry_put_ne; [done | right; congruence].
Qed.

(** C6: installation is fulfilled with one result per manifest path,
    whatever the network did; every path was passed to [cache.add] before
    that; and each path the network could serve is in the current
    generation afterwards, whatever happened to the others. *)
Theorem install_attempts_are_independent st :
  outcome (dispatch (install_listener network) st)
  = Some (Fulfilled (Some (map (λ _, ()) urlsToCache)))
  ∧ (∀ url, url ∈ urlsToCache →
       CallCacheAdd CACHE_NAME url ∈ trace (dispatch (install_listener network) st))
  ∧ (∀ url received,
       url ∈ urlsToCache →
       network (request_of_url url) = Fulfilled (Some received) →
       addable received = true →
       cache_entry (storage (dispatch (install_listener network) st)) CACHE_NAME url
       = Some received).
Proof.
  rewrite dispatch_install. cbn [outcome trace storage]. split; [done|]. split.
  - intros url Hin. rewrite !elem_of_app. right. left.
    apply list_elem_of_fmap. eauto.
  - intros url received Hin Hnet Hok.
    apply precache_entry; [apply storage_lookup_open | done | done | by left].
Qed.

(** The install listener leaves the current generation in place. *)
Lemma install_opens_current st :
  CACHE_NAME ∈ storage_keys (storage (dispatch (install_listener network) st)).
Proof.
  rewrite dispatch_install. cbn [storage]. apply storage_lookup_keys.
  generalize (storage_lookup_open st CACHE_NAME).
  generalize (storage_open st CACHE_NAME). clear st.
  induction urlsToCache as [|u us IH]; intros st Hopen; cbn [foldl]; [done|].
  by apply IH, added_keeps_instance.
Qed.

End Install.

Lemma install_attempts_are_independent_witness :
  sample_network (request_of_url "/offline.html") = Rejected (TypeError "Failed to fetch")
  ∧ cache_entry (storage (dispatch (install_listener sample_network) sample_storage))
      CACHE_NAME "/dashboard" = Some sample_script.
Proof.
  split; [reflexivity|].
  apply (proj2 (proj2 (install_attempts_are_independent sample_network sample_storage))
           "/dashboard" sample_script);
    [vm_compute; set_solver | reflexivity | reflexivity].
Defined.


(** ** The life cycle and the scenarios of the specification *)

(** Activation follows installation; the names left are then exactly the
    current generation, whatever the storage held and the network did. *)
Lemma activation_after_install network st cacheName :
  cacheName ∈ storage_keys
    (storage (dispatch activate_listener
                (storage (dispatch (install_listener network) st))))
  ↔ cacheName = CACHE_NAME.
Proof.
  pose proof (install_opens_current network st) as Hcurrent.
  destruct (dispatch_activate (storage (dispatch (install_listener network) st)))
    as [results ->].
  cbn [storage]. rewrite sweep_names. split; [tauto | by intros ->].
Qed.

(** Scenario A on the manifest of the script: '/offline.html' cannot be
    fetched, installation is fulfilled all the same, '/' is cached and
    '/offline.html' is not. *)
Example install_with_unreachable_offline_page :
  let run := dispatch (install_listener sample_network) [] in
  (∃ done, outcome run = Some (Fulfilled (Some done)))
  ∧ cache_entry (storage run) CACHE_NAME "/" = Some sample_script
  ∧ cache_entry (storage run) CACHE_NAME "/offline.html" = None.
Proof. vm_compute. eauto. Qed.

(** Scenario B: a navigation to '/dashboard', nothing cached for it, the
    network throwing. *)
Example dashboard_offline :
  outcome (dispatch (fetch_listener unreachable_network dashboard_navigation)
             sample_storage)
  = Some (Fulfilled (Some sample_offline_page)).
Proof. by vm_compute. Qed.

(** Scenario C: a successful GET of '/api/items' is returned and not
    stored. *)
Example api_response_not_stored :
  let run := dispatch (fetch_listener sample_network api_request) sample_storage in
  outcome run = Some (Fulfilled (Some sample_script))
  ∧ cache_entry (storage run) CACHE_NAME "/api/items" = None
  ∧ storage run = sample_storage.
Proof. by vm_compute. Qed.

(** Scenario D: of the instances 'goldshop-cache-v2' and 'goldshop-cache-v3'
    only the latter remains. *)
Example activation_keeps_v3 :
  storage_keys
    (storage (dispatch activate_listener
                [("goldshop-cache-v2", ∅); ("goldshop-cache-v3", ∅)]))
  = ["goldshop-cache-v3"].
Proof. by vm_compute. Qed.

(** ** Further properties of the fetch listener *)

Lemma usable_or_not answer :
  failing_or_invalid answer
  ∨ ∃ received,
      answer = Fulfilled (Some received) ∧ status received = 200 ∧ type received = "basic".
Proof.
  destruct answer as [[r|]|e]; simpl; [|by left..].
  destruct (decide (status r = 200)) as [Hs|Hs]; [|by left; left].
  destruct (decide (type r = "basic")) as [Ht|Ht]; [|by left; right].
  right. eauto.
Qed.

Lemma respond_miss_unusable_calls network request st nav :
  storage_match st request = None →
  failing_or_invalid (network request) →
  ∃ t,
    settle (respond network nav request) st =
      (if nav then Fulfilled (storage_match st offline_request) else network request,
       st, CallFetch request :: t)
    ∧ ∀ c, c ∈ t → quiet_call c.
Proof.
  intros Hmiss Hnet. run_promise. rewrite Hmiss.
  assert (∀ (l : list HostCall), Forall quiet_call l → ∀ c, c ∈ l → quiet_call c)
    as Hall by (intros l Hl c Hc; by eapply Forall_forall in Hl).
  assert (∀ level message, quiet_call (console level message))
    as Hconsole by (intros; left; eauto).
  assert (quiet_call (CallCachesMatch offline_request)) as Hoff by by right.
  destruct (network request) as [[received|]|e]; simpl in Hnet.
  - apply invalid_test_true in Hnet. rewrite Hnet.
    destruct nav; simpl; eexists; (split; [done|]); apply Hall;
      repeat (apply Forall_cons_2; [first [apply Hconsole | apply Hoff]|]);
      apply Forall_nil_2.
  - destruct nav; simpl; eexists; (split; [done|]); apply Hall;
      repeat (apply Forall_cons_2; [first [apply Hconsole | apply Hoff]|]);
      apply Forall_nil_2.
  - destruct nav; simpl; eexists; (split; [done|]); apply Hall;
      repeat (apply Forall_cons_2; [first [apply Hconsole | apply Hoff]|]);
      apply Forall_nil_2.
Qed.

(** The four ways an event can go: the navigation test throws; the request
    is cached; it is not and the network gives nothing usable; it is not
    and the network gives a valid response. *)
Lemma fetch_run_cases network request st :
  (∃ e,
     isHtmlNavigation request = Rejected e
     ∧ dispatch (fetch_listener network request) st =
         {| outcome := None; storage := st; trace := []; uncaught := Some e |})
  ∨ (∃ nav cached,
       isHtmlNavigation request = Fulfilled nav
       ∧ storage_match st request = Some cached
       ∧ dispatch (fetch_listener network request) st =
           {| outcome := Some (Fulfilled (Some cached)); storage := st;
              trace := [CallCachesMatch request;
                        console "log" ("[Service Worker] Serving from cache: "
                                       +:+ url request)];
              uncaught := None |})
  ∨ (∃ nav t,
       isHtmlNavigation request = Fulfilled nav
       ∧ storage_match st request = None
       ∧ failing_or_invalid (network request)
       ∧ (∀ c, c ∈ t → quiet_call c)
       ∧ dispatch (fetch_listener network request) st =
           {| outcome := Some (if nav then Fulfilled (storage_match st offline_request)
                               else network request);
              storage := st;
              trace := CallCachesMatch request :: CallFetch request :: t;
              uncaught := None |})
  ∨ (∃ nav received,
       isHtmlNavigation request = Fulfilled nav
       ∧ storage_match st request = None
       ∧ network request = Fulfilled (Some received)
       ∧ status received = 200 ∧ type received = "basic"
       ∧ dispatch (fetch_listener network request) st =
           if strict_eq (method request) "GET" && negb (includes (url request) "/api/")
           then
             {| outcome := Some (Fulfilled (Some received));
                storage := storage_put (storage_open st CACHE_NAME) CACHE_NAME
                             (url request) received;
                trace := [CallCachesMatch request; CallFetch request;
                          CallCachesOpen CACHE_NAME;
                          console "log" ("[Service Worker] Caching new resource: "
                                         +:+ url request);
                          CallCachePut CACHE_NAME request received];
                uncaught := None |}
           else
             {| outcome := Some (Fulfilled (Some received));
                storage := storage_open st CACHE_NAME;
                trace := [CallCachesMatch request; CallFetch request;
                          CallCachesOpen CACHE_NAME];
                uncaught := None |}).
Proof.
  destruct (isHtmlNavigation request) as [nav|e] eqn:Hnav.
  2: { left. exists e. split; [done|]. by apply dispatch_fetch_thrown. }
  right. destruct (storage_match st request) as [cached|] eqn:Hmatch.
  { left. exists nav, cached. split; [done|]. split; [done|].
    by apply (cache_precedence _ _ _ nav). }
  right. destruct (usable_or_not (network request))
    as [Hnet | [received [Hnet [Hstatus Htype]]]].
  - left.
    destruct (respond_miss_unusable_calls network request st nav Hmatch Hnet)
      as [t [Hsettle Hquiet]].
    exists nav, t. repeat (split; [done|]).
    rewrite (dispatch_fetch_responds _ _ _ nav Hnav). by rewrite Hsettle.
  - right. exists nav, received. repeat (split; [done|]).
    rewrite (dispatch_fetch_responds _ _ _ nav Hnav).
    rewrite (respond_miss_valid _ _ _ nav received Hmatch Hnet Hstatus Htype).
    by destruct (strict_eq (method request) "GET" && negb (includes (url request) "/api/")).
Qed.

Lemma isHtmlNavigation_rejected request e :
  isHtmlNavigation request = Rejected e ↔
  mode request ≠ "navigate" ∧ method request = "GET"
  ∧ headers_get (headers request) "accept" = None
  ∧ e = TypeError "Cannot read properties of null (reading 'includes')".
Proof.
  unfold isHtmlNavigation.
  destruct (strict_eq (mode request) "navigate") eqn:Hmode.
  { apply strict_eq_true in Hmode. split; [done | by intros [? _]]. }
  apply strict_eq_false in Hmode.
  destruct (strict_eq (method request) "GET") eqn:Hget.
  - apply strict_eq_true in Hget.
    destruct (headers_get (headers request) "accept") as [accept|].
    + split; [done | by intros (_ & _ & ? & _)].
    + split; [by intros [= <-] | by intros (_ & _ & _ & ->)].
  - apply strict_eq_false in Hget. split; [done | by intros (_ & ? & _)].
Qed.

Lemma valid_is_usable (r : Response) :
  status r = 200 → type r = "basic" → ¬ failing_or_invalid (Fulfilled (Some r)).
Proof. intros Hs Ht [?|?]; done. Qed.

Lemma quiet_call_not_fetch c r : quiet_call c → c ≠ CallFetch r.
Proof. by intros [(? & ? & ->) | ->]. Qed.

Lemma match_all_open st cacheName key :
  match_all (storage_open st cacheName) key = match_all st key.
Proof.
  unfold storage_open. destruct (storage_lookup st cacheName); [done|].
  induction st as [|[n c] st IH]; simpl; [by rewrite lookup_empty|].
  by destruct (c !! key).
Qed.

(** Once an entry is put where no instance held the key, [caches.match]
    finds that entry. *)
Lemma match_all_put st cacheName key r :
  match_all st key = None →
  is_Some (storage_lookup st cacheName) →
  match_all (storage_put st cacheName key r) key = Some r.
Proof.
  induction st as [|[n c] st IH]; simpl; [by intros _ [? ?]|].
  destruct (c !! key) eqn:Hc; [done|]. intros Hmiss Hopen.
  destruct (strict_eq n cacheName); simpl.
  - by rewrite lookup_insert_eq.
  - rewrite Hc. by apply IH.
Qed.

(** X1: the listener hands a response to [event.respondWith] for every
    request but one kind: a GET whose mode is not 'navigate' and that has no
    Accept header. *)
Theorem listener_responds_unless_accept_missing network request st :
  outcome (dispatch (fetch_listener network request) st) = None ↔
  mode request ≠ "navigate" ∧ method request = "GET"
  ∧ headers_get (headers request) "accept" = None.
Proof.
  split.
  - intros Hnone.
    destruct (fetch_run_cases network request st)
      as [(e & Hnav & _) | [(? & ? & _ & _ & Hrun) | [(? & ? & _ & _ & _ & _ & Hrun)
         | (? & ? & _ & _ & _ & _ & _ & Hrun)]]].
    + apply isHtmlNavigation_rejected in Hnav. tauto.
    + by rewrite Hrun in Hnone.
    + by rewrite Hrun in Hnone.
    + rewrite Hrun in Hnone.
      by destruct (strict_eq (method request) "GET" && negb (includes (url request) "/api/")).
  - intros (Hmode & Hget & Hacc).
    rewrite (dispatch_fetch_thrown network request st
               (TypeError "Cannot read properties of null (reading 'includes')")); [done|].
    by apply isHtmlNavigation_rejected.
Qed.

(** X2: for a request that has a cached match the network plays no part:
    the run is the same under any two networks, the storage is left as it
    was, and the cached entry is the response whenever the navigation test
    completes. *)
Theorem cached_request_ignores_network network network' request st cached :
  storage_match st request = Some cached →
  dispatch (fetch_listener network request) st
  = dispatch (fetch_listener network' request) st
  ∧ storage (dispatch (fetch_listener network request) st) = st
  ∧ (∀ nav, isHtmlNavigation request = Fulfilled nav →
       outcome (dispatch (fetch_listener network request) st)
       = Some (Fulfilled (Some cached))).
Proof.
  intros Hhit. destruct (isHtmlNavigation request) as [nav|e] eqn:Hnav.
  - rewrite !(cache_precedence _ request st nav cached Hnav Hhit). done.
  - rewrite !(dispatch_fetch_thrown _ request st e Hnav). done.
Qed.

Lemma cached_request_ignores_network_witness :
  dispatch (fetch_listener sample_network dashboard_stylesheet) sample_storage
  = dispatch (fetch_listener unreachable_network dashboard_stylesheet) sample_storage
  ∧ outcome (dispatch (fetch_listener sample_network dashboard_stylesheet) sample_storage)
    = Some (Fulfilled (Some sample_stylesheet)).
Proof.
  destruct (cached_request_ignores_network sample_network unreachable_network
              dashboard_stylesheet sample_storage sample_stylesheet)
    as (Hsame & _ & Hserved); [vm_compute; reflexivity|].
  split; [exact Hsame | apply (Hserved false); reflexivity].
Defined.

(** X3: a valid network response (200, 'basic') for a request that is not
    cached is the response, whatever the method and the URL: the write to
    the cache does not gate it. *)
Theorem valid_response_is_returned network request st nav received :
  isHtmlNavigation request = Fulfilled nav →
  storage_match st request = None →
  network request = Fulfilled (Some received) →
  status received = 200 →
  type received = "basic" →
  outcome (dispatch (fetch_listener network request) st)
  = Some (Fulfilled (Some received)).
Proof.
  intros Hnav Hmiss Hnet Hstatus Htype.
  rewrite (dispatch_fetch_responds _ _ _ nav Hnav).
  rewrite (respond_miss_valid _ _ _ nav received Hmiss Hnet Hstatus Htype).
  by destruct (strict_eq (method request) "GET" && negb (includes (url request) "/api/")).
Qed.

Lemma valid_response_is_returned_witness :
  outcome (dispatch (fetch_listener sample_network api_request) sample_storage)
  = Some (Fulfilled (Some sample_script)).
Proof.
  apply (valid_response_is_returned sample_network api_request sample_storage false
           sample_script);
    [reflexivity | vm_compute; reflexivity | reflexivity | reflexivity | reflexivity].
Defined.

(** The storage after an event: untouched, or with the current generation
    opened, or with the response put under the URL of the request. *)
Lemma fetch_storage_cases network request st :
  storage (dispatch (fetch_listener network request) st) = st
  ∨ storage (dispatch (fetch_listener network request) st) = storage_open st CACHE_NAME
  ∨ ∃ received,
      storage (dispatch (fetch_listener network request) st)
      = storage_put (storage_open st CACHE_NAME) CACHE_NAME (url request) received.
Proof.
  destruct (fetch_run_cases network request st)
    as [(e & _ & ->) | [(? & ? & _ & _ & ->) | [(? & ? & _ & _ & _ & _ & ->)
       | (? & received & _ & _ & _ & _ & _ & ->)]]]; [by left..|].
  right.
  destruct (strict_eq (method request) "GET" && negb (includes (url request) "/api/"));
    cbn [storage]; eauto.
Qed.

(** X4: whatever the request and the network, the listener changes at most
    one entry: the one under the URL of the request in the current
    generation.  Every other entry of every instance stays as it was. *)
Theorem fetch_touches_one_entry network request st cacheName key :
  cacheName ≠ CACHE_NAME ∨ key ≠ url request →
  cache_entry (storage (dispatch (fetch_listener network request) st)) cacheName key
  = cache_entry st cacheName key.
Proof.
  intros Hother.
  destruct (fetch_storage_cases network request st) as [-> | [-> | [received ->]]].
  - done.
  - apply cache_entry_open.
  - rewrite cache_entry_put_ne by done. apply cache_entry_open.
Qed.

Lemma fetch_touches_one_entry_witness :
  cache_entry (storage (dispatch (fetch_listener sample_network script_request)
                          sample_storage))
    CACHE_NAME "/offline.html" = Some sample_offline_page.
Proof.
  rewrite (fetch_touches_one_entry sample_network script_request sample_storage
             CACHE_NAME "/offline.html");
    [vm_compute; reflexivity | right; vm_compute; discriminate].
Defined.

(** X5: the listener never removes a cache instance and creates none but
    the current generation. *)
Theorem fetch_keeps_instances network request st :
  (∀ cacheName,
     cacheName ∈ storage_keys st →
     cacheName ∈ storage_keys (storage (dispatch (fetch_listener network request) st)))
  ∧ (∀ cacheName,
       cacheName ∈ storage_keys (storage (dispatch (fetch_listener network request) st)) →
       cacheName = CACHE_NAME ∨ cacheName ∈ storage_keys st).
Proof.
  destruct (fetch_storage_cases network request st) as [-> | [-> | [received ->]]];
    rewrite ?storage_keys_put;
    split; intros cacheName Hin; auto; apply storage_keys_open; auto.
Qed.

Lemma fetch_keeps_instances_witness :
  "goldshop-cache-v2"
  ∈ storage_keys (storage (dispatch (fetch_listener sample_network script_request)
                             sample_storage)).
Proof.
  apply (proj1 (fetch_keeps_instances sample_network script_request sample_storage)).
  vm_compute. set_solver.
Defined.

(** X6: a request whose method is not GET always goes to the network, and
    nothing is stored for it. *)
Theorem non_get_is_fetched_and_not_stored network request st :
  method request ≠ "GET" →
  CallFetch request ∈ trace (dispatch (fetch_listener network request) st)
  ∧ ∀ cacheName key,
      cache_entry (storage (dispatch (fetch_listener network request) st)) cacheName key
      = cache_entry st cacheName key.
Proof.
  intros Hmethod.
  destruct (fetch_run_cases network request st)
    as [(e & Hnav & _) | [(? & ? & _ & Hhit & _) | [(? & ? & _ & _ & _ & _ & ->)
       | (? & received & _ & _ & _ & _ & _ & ->)]]].
  - apply isHtmlNavigation_rejected in Hnav. tauto.
  - unfold storage_match in Hhit. apply strict_eq_false in Hmethod.
    by rewrite Hmethod in Hhit.
  - cbn [trace storage]. split; [set_solver | done].
  - apply strict_eq_false in Hmethod. rewrite Hmethod. cbn [andb trace storage].
    split; [set_solver | intros; apply cache_entry_open].
Qed.

Lemma non_get_is_fetched_and_not_stored_witness :
  CallFetch form_post ∈ trace (dispatch (fetch_listener sample_network form_post)
                                 sample_storage)
  ∧ ∀ cacheName key,
      cache_entry (storage (dispatch (fetch_listener sample_network form_post)
                              sample_storage)) cacheName key
      = cache_entry sample_storage cacheName key.
Proof.
  apply (non_get_is_fetched_and_not_stored sample_network form_post sample_storage).
  vm_compute. discriminate.
Defined.

(** X7: when the network fails or answers with no response, a status other
    than 200 or a type other than 'basic', the storage is left exactly as it
    was: such an answer is never stored. *)
Theorem unusable_answer_is_not_stored network request st :
  failing_or_invalid (network request) →
  storage (dispatch (fetch_listener network request) st) = st.
Proof.
  intros Hnet.
  destruct (fetch_run_cases network request st)
    as [(e & _ & ->) | [(? & ? & _ & _ & ->) | [(? & ? & _ & _ & _ & _ & ->)
       | (? & received & _ & _ & Hvalid & Hstatus & Htype & _)]]]; [done..|].
  rewrite Hvalid in Hnet. by apply valid_is_usable in Hnet.
Qed.

Lemma unusable_answer_is_not_stored_witness :
  storage (dispatch (fetch_listener login_down_network login_navigation)
             storage_without_offline)
  = storage_without_offline.
Proof.
  apply (unusable_answer_is_not_stored login_down_network login_navigation
           storage_without_offline).
  left. vm_compute. discriminate.
Defined.

(** X8: once a GET without '/api/' in its URL has been answered by the
    network with a valid response and stored, the same request is answered
    from the cache with that response, under any network, also one that is
    down. *)
Theorem stored_response_is_served_next_time network network' request st nav received :
  isHtmlNavigation request = Fulfilled nav →
  storage_match st request = None →
  network request = Fulfilled (Some received) →
  status received = 200 →
  type received = "basic" →
  method request = "GET" →
  includes (url request) "/api/" = false →
  dispatch (fetch_listener network' request)
    (storage (dispatch (fetch_listener network request) st))
  = {| outcome := Some (Fulfilled (Some received));
       storage := storage (dispatch (fetch_listener network request) st);
       trace := [CallCachesMatch request;
                 console "log" ("[Service Worker] Serving from cache: " +:+ url request)];
       uncaught := None |}.
Proof.
  intros Hnav Hmiss Hnet Hstatus Htype Hget Hapi.
  apply (cache_precedence _ _ _ nav); [done|].
  rewrite (dispatch_fetch_responds _ _ _ nav Hnav).
  rewrite (respond_miss_valid _ _ _ nav received Hmiss Hnet Hstatus Htype).
  apply strict_eq_true in Hget. rewrite Hget, Hapi. cbn [andb negb storage].
  unfold storage_match in *. rewrite Hget in *.
  apply match_all_put; [by rewrite match_all_open | apply storage_lookup_open].
Qed.

Lemma stored_response_is_served_next_time_witness :
  outcome (dispatch (fetch_listener unreachable_network script_request)
             (storage (dispatch (fetch_listener sample_network script_request)
                         sample_storage)))
  = Some (Fulfilled (Some sample_script)).
Proof.
  rewrite (stored_response_is_served_next_time sample_network unreachable_network
             script_request sample_storage false sample_script);
    [reflexivity | reflexivity | vm_compute; reflexivity | reflexivity
    | reflexivity | reflexivity | reflexivity | vm_compute; reflexivity].
Defined.

(** X9: a valid network response makes the listener open the current
    generation before it looks at the method and the URL, so the instance
    exists afterwards even when nothing is stored in it. *)
Theorem valid_response_opens_current_generation network request st nav received :
  isHtmlNavigation request = Fulfilled nav →
  storage_match st request = None →
  network request = Fulfilled (Some received) →
  status received = 200 →
  type received = "basic" →
  CallCachesOpen CACHE_NAME ∈ trace (dispatch (fetch_listener network request) st)
  ∧ CACHE_NAME ∈ storage_keys (storage (dispatch (fetch_listener network request) st)).
Proof.
  intros Hnav Hmiss Hnet Hstatus Htype.
  rewrite (dispatch_fetch_responds _ _ _ nav Hnav).
  rewrite (respond_miss_valid _ _ _ nav received Hmiss Hnet Hstatus Htype).
  destruct (strict_eq (method request) "GET" && negb (includes (url request) "/api/"));
    cbn [trace storage]; (split; [set_solver|]);
    rewrite ?storage_keys_put; apply storage_keys_open; by left.
Qed.

Lemma valid_response_opens_current_generation_witness :
  CallCachesOpen CACHE_NAME
  ∈ trace (dispatch (fetch_listener sample_network api_request) [])
  ∧ CACHE_NAME ∈ storage_keys (storage (dispatch (fetch_listener sample_network api_request) [])).
Proof.
  apply (valid_response_opens_current_generation sample_network api_request [] false
           sample_script);
    [reflexivity | reflexivity | reflexivity | reflexivity | reflexivity].
Defined.

(** X10: the only request the listener ever fetches is the one of the
    event, and only after [caches.match] found nothing for it. *)
Theorem network_asked_only_on_miss network request st fetched :
  CallFetch fetched ∈ trace (dispatch (fetch_listener network request) st) →
  fetched = request ∧ storage_match st request = None.
Proof.
  intros Hin.
  destruct (fetch_run_cases network request st)
    as [(e & _ & Hrun) | [(? & ? & _ & _ & Hrun) | [(? & t & _ & Hmiss & _ & Hquiet & Hrun)
       | (? & received & _ & Hmiss & _ & _ & _ & Hrun)]]];
    rewrite Hrun in Hin; clear Hrun.
  - by apply elem_of_nil in Hin.
  - repeat (apply elem_of_cons in Hin as [Hin|Hin]); try discriminate.
    by apply elem_of_nil in Hin.
  - cbn [trace] in Hin.
    apply elem_of_cons in Hin as [Hin|Hin]; [discriminate|].
    apply elem_of_cons in Hin as [Hin|Hin]; [by injection Hin as ->|].
    by apply Hquiet, (quiet_call_not_fetch _ fetched) in Hin.
  - destruct (strict_eq (method request) "GET" && negb (includes (url request) "/api/"));
      cbn [trace] in Hin;
      repeat (apply elem_of_cons in Hin as [Hin|Hin]);
      try discriminate; try (by injection Hin as ->);
      by apply elem_of_nil in Hin.
Qed.

Lemma network_asked_only_on_miss_witness :
  script_request = script_request ∧ storage_match sample_storage script_request = None.
Proof.
  apply (network_asked_only_on_miss sample_network script_request sample_storage
           script_request).
  vm_compute. set_solver.
Defined.

(** X11: the response to a request classified as an HTML navigation is
    never rejected, whatever the network does and whatever is cached. *)
Theorem navigation_never_rejects network request st :
  isHtmlNavigation request = Fulfilled true →
  ∃ answer,
    outcome (dispatch (fetch_listener network request) st) = Some (Fulfilled answer).
Proof.
  intros Hnav.
  destruct (fetch_run_cases network request st)
    as [(e & Hthrown & _) | [(? & ? & _ & _ & ->)
       | [(nav & ? & Hnav' & _ & _ & _ & ->) | (? & received & _ & _ & _ & _ & _ & ->)]]].
  - congruence.
  - eauto.
  - assert (nav = true) as -> by congruence. cbn [outcome]. eauto.
  - destruct (strict_eq (method request) "GET" && negb (includes (url request) "/api/"));
      cbn [outcome]; eauto.
Qed.

Lemma navigation_never_rejects_witness :
  ∃ answer,
    outcome (dispatch (fetch_listener unreachable_network dashboard_navigation)
               storage_without_offline)
    = Some (Fulfilled answer).
Proof.
  apply (navigation_never_rejects unreachable_network dashboard_navigation
           storage_without_offline).
  reflexivity.
Defined.

(** X12: the response is rejected only in one situation: the request is not
    classified as a navigation, it is not cached, and the fetch itself was
    rejected, with that very reason. *)
Theorem rejection_comes_from_network network request st reason :
  outcome (dispatch (fetch_listener network request) st) = Some (Rejected reason) →
  isHtmlNavigation request = Fulfilled false
  ∧ storage_match st request = None
  ∧ network request = Rejected reason.
Proof.
  intros Hrejected.
  destruct (fetch_run_cases network request st)
    as [(e & _ & Hrun) | [(? & ? & _ & _ & Hrun)
       | [(nav & ? & Hnav & Hmiss & _ & _ & Hrun)
         | (? & received & _ & _ & _ & _ & _ & Hrun)]]];
    rewrite Hrun in Hrejected; clear Hrun.
  - done.
  - done.
  - destruct nav; cbn [outcome] in Hrejected; [done|].
    injection Hrejected as Hreason. done.
  - by destruct (strict_eq (method request) "GET" && negb (includes (url request) "/api/")).
Qed.

Lemma rejection_comes_from_network_witness :
  isHtmlNavigation script_request = Fulfilled false
  ∧ storage_match sample_storage script_request = None
  ∧ unreachable_network script_request = Rejected (TypeError "Failed to fetch").
Proof.
  apply (rejection_comes_from_network unreachable_network script_request sample_storage
           (TypeError "Failed to fetch")).
  vm_compute. reflexivity.
Defined.

(** ** Further properties of the activate listener *)

Lemma storage_delete_filter (st : list (string * Cache)) cacheName :
  storage_delete st cacheName = filter (λ p, p.1 ≠ cacheName) st.
Proof.
  induction st as [|[n c] st IH]; cbn [storage_delete]; [done|].
  rewrite filter_cons. cbn [fst]. destruct (strict_eq n cacheName) eqn:Hn.
  - apply strict_eq_true in Hn. by rewrite decide_False by tauto.
  - apply strict_eq_false in Hn. by rewrite decide_True, IH by done.
Qed.

Lemma swept_filter (st : list (string * Cache)) cacheNames :
  swept st cacheNames = filter (λ p, p.1 = CACHE_NAME ∨ p.1 ∉ cacheNames) st.
Proof.
  revert st. induction cacheNames as [|n ns IH]; intros st.
  - unfold swept. cbn [foldl]. symmetry. induction st as [|p st IHst]; [done|].
    rewrite filter_cons_True, IHst; [done | right; apply not_elem_of_nil].
  - rewrite swept_cons, IH. destruct (strict_eq CACHE_NAME n) eqn:Hn.
    + apply strict_eq_true in Hn. subst n. apply list_filter_iff. intros p.
      rewrite not_elem_of_cons.
      destruct (decide (p.1 = CACHE_NAME)) as [Hp|Hp]; [by split; left|].
      split; (intros [? | ?]; [by left | right]); [done | by destruct_and?].
    + apply strict_eq_false in Hn. rewrite storage_delete_filter, list_filter_filter.
      apply list_filter_iff. intros p. rewrite not_elem_of_cons.
      split.
      * intros [[? | ?] ?]; [by left | by right].
      * intros [Hp | [? ?]]; [|by split; [right|]].
        split; [by left | congruence].
Qed.

Lemma filter_listed (st : list (string * Cache)) (ks : list string) :
  (∀ p, p ∈ st → p.1 ∈ ks) →
  filter (λ p, p.1 = CACHE_NAME ∨ p.1 ∉ ks) st = filter (λ p, p.1 = CACHE_NAME) st.
Proof.
  intros Hin. induction st as [|p st IH]; [done|].
  rewrite !filter_cons.
  assert (p.1 ∈ ks) by (apply Hin; by left).
  rewrite IH by (intros q Hq; apply Hin; by right).
  destruct (decide (p.1 = CACHE_NAME)) as [Hp|Hp].
  - by rewrite decide_True by (by left).
  - rewrite decide_False; [done|]. by intros [? | ?].
Qed.

Lemma activation_storage (st : list (string * Cache)) :
  swept st (storage_keys st) = filter (λ p, p.1 = CACHE_NAME) st.
Proof.
  rewrite swept_filter. apply filter_listed.
  intros p Hp. unfold storage_keys. apply list_elem_of_fmap. eauto.
Qed.

(** [indexOf] answers -1 exactly for what is not in the list. *)
Lemma indexOf_from_spec i l x :
  (0 ≤ i)%Z → indexOf_from i l x = (-1)%Z ↔ x ∉ l.
Proof.
  revert i. induction l as [|y l IH]; intros i Hi; simpl.
  - split; [intros _; apply not_elem_of_nil | done].
  - rewrite not_elem_of_cons. destruct (strict_eq y x) eqn:Hy.
    + apply strict_eq_true in Hy. subst y. split; [lia | tauto].
    + apply strict_eq_false in Hy. rewrite IH by lia. split; [auto | tauto].
Qed.

(** X13: the storage after activation is the storage before it with every
    instance of another name removed: the instances of the current
    generation are kept as they were, entries included, in their order. *)
Theorem activation_keeps_current_generation_only (st : list (string * Cache)) :
  storage (dispatch activate_listener st) = filter (λ p, p.1 = CACHE_NAME) st.
Proof.
  destruct (dispatch_activate st) as [results ->]. cbn [storage].
  apply activation_storage.
Qed.

(** X14: a deletion is asked for exactly the existing instances whose name
    is not the current generation. *)
Theorem deletions_are_the_stale_names st cacheName :
  CallCachesDelete cacheName ∈ trace (dispatch activate_listener st)
  ↔ cacheName ∈ storage_keys st ∧ cacheName ≠ CACHE_NAME.
Proof.
  destruct (dispatch_activate st) as [results ->]. cbn [trace].
  rewrite elem_of_app. unfold sweep_calls.
  assert (CallCachesDelete cacheName
            ∈ concat (map (λ n, if strict_eq CACHE_NAME n then []
                                else [console "log" "[Service Worker] Deleting old cache:";
                                      CallCachesDelete n])
                          (storage_keys st))
          ↔ cacheName ∈ storage_keys st ∧ cacheName ≠ CACHE_NAME) as Hsweep.
  { induction (storage_keys st) as [|n ns IH]; cbn [map concat].
    - split; [by intros ?%elem_of_nil | by intros [?%elem_of_nil _]].
    - rewrite elem_of_app, IH, elem_of_cons. clear IH.
      destruct (strict_eq CACHE_NAME n) eqn:Hn.
      + apply strict_eq_true in Hn. subst n.
        split; [intros [?%elem_of_nil | ?]; tauto | intros [[-> | ?] ?]; tauto].
      + apply strict_eq_false in Hn. split.
        * intros [Hin | ?]; [|tauto].
          repeat (apply elem_of_cons in Hin as [Hin|Hin]); try discriminate.
          -- injection Hin as ->. split; [by left | congruence].
          -- by apply elem_of_nil in Hin.
        * intros [[-> | ?] ?]; [left; set_solver | tauto]. }
  rewrite <- Hsweep. split; [|by right].
  intros [Hin | ?]; [|done].
  repeat (apply elem_of_cons in Hin as [Hin|Hin]); try discriminate.
  by apply elem_of_nil in Hin.
Qed.

(** X15: a second activation finds nothing to delete: the storage stays as
    the first one left it and the listener only logs, lists the names and
    claims the clients. *)
Theorem second_activation_is_idle (st : list (string * Cache)) :
  storage (dispatch activate_listener (storage (dispatch activate_listener st)))
  = storage (dispatch activate_listener st)
  ∧ trace (dispatch activate_listener (storage (dispatch activate_listener st)))
    = [console "log" "[Service Worker] Activating..."; CallCachesKeys; CallClientsClaim].
Proof.
  destruct (dispatch_activate st) as [results ->]. cbn [storage].
  rewrite activation_storage.
  destruct (dispatch_activate (filter (λ p, p.1 = CACHE_NAME) st)) as [results' ->].
  cbn [storage trace]. rewrite activation_storage. split.
  - rewrite list_filter_filter. apply list_filter_iff. tauto.
  - assert (sweep_calls (storage_keys (filter (λ p, p.1 = CACHE_NAME) st)) = [])
      as ->; [|done].
    unfold sweep_calls, storage_keys. induction st as [|p st IH]; [done|].
    rewrite filter_cons. destruct (decide (p.1 = CACHE_NAME)) as [Hp|Hp]; [|done].
    cbn [map concat]. rewrite IH, Hp, strict_eq_refl. done.
Qed.

(** X16: the callback of [cacheNames.map] spares every name on the
    whitelist, whatever the whitelist holds: it asks for no deletion and
    leaves the storage alone; for any other name it logs and asks for the
    deletion of that name. *)
Theorem whitelist_is_respected cacheWhitelist cacheName st :
  (cacheName ∈ cacheWhitelist →
   issued (delete_unlisted cacheWhitelist cacheName) = []
   ∧ settle (delete_unlisted cacheWhitelist cacheName) st = (Fulfilled None, st, []))
  ∧ (cacheName ∉ cacheWhitelist →
     issued (delete_unlisted cacheWhitelist cacheName)
     = [console "log" "[Service Worker] Deleting old cache:"; CallCachesDelete cacheName]
     ∧ (settle (delete_unlisted cacheWhitelist cacheName) st).1.2
       = storage_delete st cacheName).
Proof.
  unfold delete_unlisted, indexOf. split; intros Hin.
  - destruct (indexOf_from 0 cacheWhitelist cacheName =? -1)%Z eqn:Hidx; [|done].
    apply Z.eqb_eq, indexOf_from_spec in Hidx; [done | lia].
  - apply (indexOf_from_spec 0) in Hin; [|lia]. rewrite Hin. cbn [Z.eqb]. done.
Qed.

Lemma whitelist_is_respected_witness :
  issued (delete_unlisted ["goldshop-cache-v3"; "goldshop-images"] "goldshop-images") = []
  ∧ issued (delete_unlisted ["goldshop-cache-v3"; "goldshop-images"] "goldshop-cache-v2")
    = [console "log" "[Service Worker] Deleting old cache:";
       CallCachesDelete "goldshop-cache-v2"].
Proof.
  split.
  - apply (proj1 (whitelist_is_respected ["goldshop-cache-v3"; "goldshop-images"]
                    "goldshop-images" [])).
    vm_compute. set_solver.
  - apply (proj2 (whitelist_is_respected ["goldshop-cache-v3"; "goldshop-images"]
                    "goldshop-cache-v2" [])).
    intros Hin. repeat (apply elem_of_cons in Hin as [Hin|Hin]; [discriminate|]).
    by apply elem_of_nil in Hin.
Defined.

(** X17: after activation a cached response can only come from the current
    generation: what [caches.match] finds is an entry of an instance named
    as the current generation that was there before. *)
Theorem after_activation_only_current_entries_match st request found :
  storage_match (storage (dispatch activate_listener st)) request = Some found →
  ∃ c, (CACHE_NAME, c) ∈ st ∧ c !! url request = Some found.
Proof.
  destruct (dispatch_activate st) as [results ->]. cbn [storage].
  rewrite activation_storage. unfold storage_match.
  destruct (strict_eq (method request) "GET"); [|done].
  intros Hfound. apply match_all_Some in Hfound as (n & c & Hin & Hc).
  apply list_elem_of_filter in Hin as [Hn Hin]. cbn [fst] in Hn. subst n. eauto.
Qed.

Lemma after_activation_only_current_entries_match_witness :
  ∃ c, (CACHE_NAME, c) ∈ sample_storage
       ∧ c !! url offline_request = Some sample_offline_page.
Proof.
  apply (after_activation_only_current_entries_match sample_storage offline_request
           sample_offline_page).
  vm_compute. reflexivity.
Defined.

(** ** Further properties of the install listener *)

Lemma storage_put_same st cacheName key r :
  cache_entry st cacheName key = Some r → storage_put st cacheName key r = st.
Proof.
  unfold cache_entry. induction st as [|[n c] st IH]; cbn [storage_put storage_lookup];
    [done|].
  destruct (strict_eq n cacheName); cbn [mbind option_bind].
  - intros Hc. by rewrite insert_id.
  - intros Hc. by rewrite IH.
Qed.

Lemma append_colon_inj u u' : u +:+ ":" = u' +:+ ":" → u = u'.
Proof.
  revert u'. induction u as [|a u IH]; intros [|a' u']; simpl; intros Heq.
  - done.
  - injection Heq as _ Heq. by destruct u'.
  - injection Heq as _ Heq. by destruct u.
  - injection Heq as -> Heq. by rewrite (IH u' Heq).
Qed.

Section InstallEffects.

Variable network : Request -> Settled (option Response).

Lemma install_storage st :
  storage (dispatch (install_listener network) st)
  = foldl (added network CACHE_NAME) (storage_open st CACHE_NAME) urlsToCache.
Proof. by rewrite dispatch_install. Qed.

Lemma added_unservable cache st url :
  (∀ r, ¬ servable network url r) → added network cache st url = st.
Proof.
  intros Hfails. unfold added.
  destruct (network (request_of_url url)) as [[r|]|e] eqn:Hnet; [|done..].
  destruct (addable r) eqn:Hok; [|done]. by destruct (Hfails r).
Qed.

Lemma added_entry_other cache st url cacheName key :
  cacheName ≠ cache ∨ key ≠ url →
  cache_entry (added network cache st url) cacheName key = cache_entry st cacheName key.
Proof.
  intros Hother. unfold added.
  destruct (network (request_of_url url)) as [[r|]|e]; [|done..].
  destruct (addable r); [|done]. by apply cache_entry_put_ne.
Qed.

Lemma added_keys cache st url :
  storage_keys (added network cache st url) = storage_keys st.
Proof.
  unfold added. destruct (network (request_of_url url)) as [[r|]|e]; [|done..].
  destruct (addable r); [|done]. apply storage_keys_put.
Qed.

Lemma precache_keys cache urls st :
  storage_keys (foldl (added network cache) st urls) = storage_keys st.
Proof.
  revert st. induction urls as [|u us IH]; intros st; cbn [foldl]; [done|].
  by rewrite IH, added_keys.
Qed.

Lemma precache_entry_kept cache urls st cacheName key :
  cacheName ≠ cache ∨ key ∉ urls ∨ (∀ r, ¬ servable network key r) →
  cache_entry (foldl (added network cache) st urls) cacheName key
  = cache_entry st cacheName key.
Proof.
  intros Hkept. revert st. induction urls as [|u us IH]; intros st; cbn [foldl]; [done|].
  rewrite IH.
  - destruct (decide (key = u)) as [->|Hne].
    + destruct Hkept as [? | [Hout | Hfails]].
      * apply added_entry_other. by left.
      * destruct Hout. by left.
      * by rewrite added_unservable.
    + apply added_entry_other. by right.
  - destruct Hkept as [? | [Hout | ?]]; [by left | | by right; right].
    right. left. intros Hin. apply Hout. by right.
Qed.

Lemma precache_settled cache urls st :
  (∀ url r, url ∈ urls → servable network url r → cache_entry st cache url = Some r) →
  foldl (added network cache) st urls = st.
Proof.
  induction urls as [|u us IH]; intros Hdone; cbn [foldl]; [done|].
  assert (added network cache st u = st) as ->.
  { unfold added. destruct (network (request_of_url u)) as [[r|]|e] eqn:Hnet; [|done..].
    destruct (addable r) eqn:Hok; [|done].
    apply storage_put_same, Hdone; [by left | done]. }
  apply IH. intros url r Hin. apply Hdone. by right.
Qed.

(** X18: installation changes entries of the current generation under
    manifest paths only: every entry of another instance, and every entry
    under another key, stays as it was. *)
Theorem install_leaves_other_entries st cacheName key :
  cacheName ≠ CACHE_NAME ∨ key ∉ urlsToCache →
  cache_entry (storage (dispatch (install_listener network) st)) cacheName key
  = cache_entry st cacheName key.
Proof.
  intros Hother. rewrite install_storage, precache_entry_kept.
  - apply cache_entry_open.
  - destruct Hother; [by left | by right; left].
Qed.

(** X19: a manifest path that cannot be fetched, or whose response
    [cache.add] refuses, keeps the entry the storage already had for it: a
    failed attempt does not clear what an earlier installation stored. *)
Theorem failed_path_keeps_its_entry st cacheName key :
  (∀ r, ¬ servable network key r) →
  cache_entry (storage (dispatch (install_listener network) st)) cacheName key
  = cache_entry st cacheName key.
Proof.
  intros Hfails. rewrite install_storage, precache_entry_kept.
  - apply cache_entry_open.
  - by right; right.
Qed.

(** X20: installation removes no cache instance and creates none but the
    current generation: the earlier generations stay until activation. *)
Theorem install_keeps_instances st cacheName :
  cacheName ∈ storage_keys (storage (dispatch (install_listener network) st))
  ↔ cacheName = CACHE_NAME ∨ cacheName ∈ storage_keys st.
Proof. rewrite install_storage, precache_keys. apply storage_keys_open. Qed.

(** X21: installing again under the same network changes nothing: the
    storage after the second installation is the storage after the first. *)
Theorem install_is_idempotent st :
  storage (dispatch (install_listener network)
             (storage (dispatch (install_listener network) st)))
  = storage (dispatch (install_listener network) st).
Proof.
  rewrite (install_storage (storage _)).
  assert (storage_open (storage (dispatch (install_listener network) st)) CACHE_NAME
          = storage (dispatch (install_listener network) st)) as ->.
  { unfold storage_open.
    destruct (storage_lookup_keys (storage (dispatch (install_listener network) st))
                CACHE_NAME) as [_ Hsome].
    by destruct (Hsome (install_opens_current network st)) as [c ->]. }
  apply precache_settled. intros url r Hin [Hnet Hok].
  rewrite install_storage.
  apply precache_entry; [apply storage_lookup_open | done | done | by left].
Qed.

Lemma warning_of_path url :
  warnings network [url] =
    [console "warn" ("[Service Worker] Failed to cache " +:+ url +:+ ":")]
  ∧ (∀ r, ¬ servable network url r)
  ∨ warnings network [url] = [] ∧ ∃ r, servable network url r.
Proof.
  unfold warnings, servable. cbn [map concat]. rewrite app_nil_r.
  destruct (network (request_of_url url)) as [[r|]|e] eqn:Hnet.
  - destruct (addable r) eqn:Hok.
    + right. eauto.
    + left. split; [done|]. intros r' [[= <-] ?]. congruence.
  - left. split; [done|]. by intros r' [? ?].
  - left. split; [done|]. by intros r' [? ?].
Qed.

Lemma warning_logged urls url :
  console "warn" ("[Service Worker] Failed to cache " +:+ url +:+ ":")
    ∈ warnings network urls
  ↔ url ∈ urls ∧ ∀ r, ¬ servable network url r.
Proof.
  induction urls as [|u us IH].
  - split; [by intros ?%elem_of_nil | by intros [?%elem_of_nil _]].
  - rewrite (warnings_cons network u us), elem_of_app, IH, elem_of_cons. clear IH.
    destruct (warning_of_path u) as [[-> Hfails] | [-> [r Hr]]].
    + rewrite list_elem_of_singleton. split.
      * intros [[= Hmsg] | [? ?]]; [|by auto].
        apply (append_colon_inj url u) in Hmsg. subst u. by auto.
      * intros [[-> | ?] ?]; [by left | by right].
    + split.
      * intros [?%elem_of_nil | [? ?]]; [done | by auto].
      * intros [[-> | ?] Hfails]; [by destruct (Hfails r) | by right].
Qed.

(** X22: a warning is logged for a manifest path exactly when the path
    could not be cached. *)
Theorem warning_for_each_failed_path st url :
  url ∈ urlsToCache →
  console "warn" ("[Service Worker] Failed to cache " +:+ url +:+ ":")
    ∈ trace (dispatch (install_listener network) st)
  ↔ ∀ r, ¬ servable network url r.
Proof.
  intros Hin. rewrite dispatch_install. cbn [trace].
  rewrite !elem_of_app.
  pose proof (warning_logged urlsToCache url) as Hwarn.
  assert (console "warn" ("[Service Worker] Failed to cache " +:+ url +:+ ":")
            ∈ warnings network urlsToCache
          ↔ ∀ r, ¬ servable network url r) as Hwarn' by (rewrite Hwarn; tauto).
  clear Hwarn. rename Hwarn' into Hwarn.
  rewrite <- Hwarn. split; [|by right; right].
  intros [Hhead | [Hadds | ?]]; [| |done].
  - repeat (apply elem_of_cons in Hhead as [Hhead|Hhead]); try discriminate.
    by apply elem_of_nil in Hhead.
  - apply list_elem_of_fmap in Hadds as (u & Hu & _). discriminate.
Qed.

End InstallEffects.

Lemma install_leaves_other_entries_witness :
  cache_entry (storage (dispatch (install_listener sample_network) sample_storage))
    "goldshop-cache-v2" "/static/style.css"
  = Some sample_stylesheet.
Proof.
  rewrite (install_leaves_other_entries sample_network sample_storage
             "goldshop-cache-v2" "/static/style.css");
    [vm_compute; reflexivity | left; vm_compute; discriminate].
Defined.

Lemma failed_path_keeps_its_entry_witness :
  cache_entry (storage (dispatch (install_listener sample_network) sample_storage))
    CACHE_NAME "/offline.html"
  = Some sample_offline_page.
Proof.
  rewrite (failed_path_keeps_its_entry sample_network sample_storage
             CACHE_NAME "/offline.html");
    [vm_compute; reflexivity|].
  intros r [Hnet _]. vm_compute in Hnet. discriminate.
Defined.

Lemma warning_for_each_failed_path_witness :
  console "warn" "[Service Worker] Failed to cache /login:"
  ∈ trace (dispatch (install_listener sample_network) sample_storage).
Proof.
  apply (proj2 (warning_for_each_failed_path sample_network sample_storage "/login"
                  ltac:(vm_compute; set_solver))).
  intros r [Hnet Hok]. vm_compute in Hnet. injection Hnet as <-. discriminate.
Defined.

(** ** The listeners together *)

Lemma match_all_current (st : list (string * Cache)) key r :
  cache_entry st CACHE_NAME key = Some r →
  match_all (filter (λ p, p.1 = CACHE_NAME) st) key = Some r.
Proof.
  unfold cache_entry. induction st as [|[n c] st IH]; cbn [storage_lookup]; [done|].
  rewrite filter_cons. cbn [fst]. destruct (strict_eq n CACHE_NAME) eqn:Hn.
  - apply strict_eq_true in Hn. rewrite decide_True by done.
    cbn [mbind option_bind match_all]. by intros ->.
  - apply strict_eq_false in Hn. rewrite decide_False by done. apply IH.
Qed.

(** X23: when '/offline.html' could be cached at installation, then after
    activation a navigation that is not cached and gets nothing usable from
    the network is answered with the very page that installation fetched,
    whatever the storage held before. *)
Theorem offline_page_ready_after_activation network network' st request page :
  servable network "/offline.html" page →
  isHtmlNavigation request = Fulfilled true →
  failing_or_invalid (network' request) →
  storage_match
    (storage (dispatch activate_listener
                (storage (dispatch (install_listener network) st))))
    request = None →
  outcome (dispatch (fetch_listener network' request)
             (storage (dispatch activate_listener
                         (storage (dispatch (install_listener network) st)))))
  = Some (Fulfilled (Some page)).
Proof.
  intros [Hnet Hok] Hnav Hdown Hmiss.
  destruct (fallback_outcome network' request _ true Hnav Hmiss Hdown) as [-> _].
  do 2 f_equal.
  destruct (dispatch_activate (storage (dispatch (install_listener network) st)))
    as [results ->].
  cbn [storage]. rewrite activation_storage.
  unfold storage_match, offline_request, request_of_url. cbn [method url].
  rewrite strict_eq_refl. apply match_all_current.
  rewrite install_storage.
  apply precache_entry; [apply storage_lookup_open | done | done |].
  left. unfold urlsToCache. set_solver.
Qed.

Lemma offline_page_ready_after_activation_witness :
  outcome (dispatch (fetch_listener unreachable_network orders_navigation)
             (storage (dispatch activate_listener
                         (storage (dispatch (install_listener login_down_network)
                                     sample_storage)))))
  = Some (Fulfilled (Some sample_script)).
Proof.
  apply (offline_page_ready_after_activation login_down_network unreachable_network
           sample_storage orders_navigation sample_script);
    [split; reflexivity | reflexivity | exact I | vm_compute; reflexivity].
Defined.

Lemma storage_lookup_elem st cacheName c :
  storage_lookup st cacheName = Some c → (cacheName, c) ∈ st.
Proof.
  induction st as [|[n c'] st IH]; cbn [storage_lookup]; [done|].
  destruct (strict_eq n cacheName) eqn:Hn.
  - apply strict_eq_true in Hn. intros [= ->]. subst n. by left.
  - intros Hc. right. by apply IH.
Qed.

Lemma cache_entry_matches st cacheName key r :
  cache_entry st cacheName key = Some r → ∃ found, match_all st key = Some found.
Proof.
  unfold cache_entry. destruct (storage_lookup st cacheName) as [c|] eqn:Hc; [|done].
  cbn [mbind option_bind]. intros Hkey.
  destruct (match_all st key) as [found|] eqn:Hall; [eauto|].
  apply storage_lookup_elem in Hc.
  rewrite match_all_None in Hall. by rewrite (Hall _ _ Hc) in Hkey.
Qed.

(** X24: after installation, a GET for a manifest path that could be cached
    is answered from the cache under any network, without a fetch, whenever
    the navigation test completes; the entry served may be the one of an
    earlier generation that is still there. *)
Theorem manifest_path_served_after_install network network' st request nav page :
  url request ∈ urlsToCache →
  servable network (url request) page →
  method request = "GET" →
  isHtmlNavigation request = Fulfilled nav →
  ∃ cached,
    dispatch (fetch_listener network' request)
      (storage (dispatch (install_listener network) st))
    = {| outcome := Some (Fulfilled (Some cached));
         storage := storage (dispatch (install_listener network) st);
         trace := [CallCachesMatch request;
                   console "log" ("[Service Worker] Serving from cache: "
                                  +:+ url request)];
         uncaught := None |}.
Proof.
  intros Hin [Hnet Hok] Hget Hnav.
  assert (cache_entry (storage (dispatch (install_listener network) st))
            CACHE_NAME (url request) = Some page) as Hentry.
  { rewrite install_storage.
    apply precache_entry; [apply storage_lookup_open | done | done | by left]. }
  apply cache_entry_matches in Hentry as [cached Hcached].
  exists cached. apply (cache_precedence _ _ _ nav); [done|].
  unfold storage_match. apply strict_eq_true in Hget. by rewrite Hget.
Qed.

Lemma manifest_path_served_after_install_witness :
  ∃ cached,
    dispatch (fetch_listener unreachable_network dashboard_navigation)
      (storage (dispatch (install_listener sample_network) sample_storage))
    = {| outcome := Some (Fulfilled (Some cached));
         storage := storage (dispatch (install_listener sample_network) sample_storage);
         trace := [CallCachesMatch dashboard_navigation;
                   console "log" "[Service Worker] Serving from cache: /dashboard"];
         uncaught := None |}.
Proof.
  apply (manifest_path_served_after_install sample_network unreachable_network
           sample_storage dashboard_navigation true sample_script);
    [vm_compute; set_solver | split; reflexivity | reflexivity | reflexivity].
Defined.
